(** * Translation-with-Amer: the recorder / translator page (src/index.tsx)

    A shallow embedding of the [App] component: its six [useState] cells,
    its two refs, the four handlers ([startRecording], [stopRecording],
    [translateAudio], [reset]), the helper [blobToBase64], and the part of
    the rendered tree that decides which button can be clicked.

    The browser is the environment.  What it decides (whether a blob can be
    read, whether the microphone is granted, what the remote call answers)
    enters the handlers as an argument; what the page asks of it (start a
    recorder, read a blob, send a request, write to the console) leaves them
    as a list of [Effect]s. *)

From Stdlib Require Import List String Ascii Bool NArith ZArith Lia.
From Stdlib Require Import Strings.Byte.
Import ListNotations.
Local Open Scope list_scope.
Local Open Scope string_scope.

(* ================================================================= *)
(** ** Strings as the code uses them *)

Module JsString.

(** [s.split(sep)] for a one-character separator: the pieces between the
    occurrences of [sep], in order; a string without [sep] is one piece. *)
Fixpoint split (sep : ascii) (s : string) : list string :=
  match s with
  | EmptyString => [EmptyString]
  | String c rest =>
      if Ascii.eqb c sep then EmptyString :: split sep rest
      else match split sep rest with
           | [] => [String c EmptyString]
           | piece :: pieces => String c piece :: pieces
           end
  end.

(** [c] occurs in [s]. *)
Fixpoint mem (c : ascii) (s : string) : bool :=
  match s with
  | EmptyString => false
  | String d rest => Ascii.eqb d c || mem c rest
  end.

(** A JS string is falsy exactly when it is empty. *)
Definition truthy (s : string) : bool :=
  match s with EmptyString => false | String _ _ => true end.

End JsString.

(* ================================================================= *)
(** ** Base64, as [FileReader.readAsDataURL] produces it *)

Module Base64.

Definition alphabet : string :=
  "ABCDEFGHIJKLMNOPQRSTUVWXYZabcdefghijklmnopqrstuvwxyz0123456789+/".

Definition pad : ascii := "="%char.

(** The character of a six-bit value. *)
Definition sextet_char (n : N) : ascii :=
  match String.get (N.to_nat n) alphabet with
  | Some c => c
  | None => pad
  end.

(** The six-bit value of a character of the alphabet. *)
Definition char_sextet (c : ascii) : option N :=
  let n := N_of_ascii c in
  (if (65 <=? n) && (n <=? 90) then Some (n - 65)
   else if (97 <=? n) && (n <=? 122) then Some (n - 71)
   else if (48 <=? n) && (n <=? 57) then Some (n + 4)
   else if n =? 43 then Some 62
   else if n =? 47 then Some 63
   else None)%N.

(** Three bytes give four characters; one or two trailing bytes give two
    or three characters and padding. *)
Fixpoint encode (bs : list byte) : string :=
  match bs with
  | [] => EmptyString
  | [a] =>
      let x := Byte.to_N a in
      String (sextet_char (x / 4))
        (String (sextet_char ((x mod 4) * 16))
           (String pad (String pad EmptyString)))
  | [a; b] =>
      let x := Byte.to_N a in
      let y := Byte.to_N b in
      String (sextet_char (x / 4))
        (String (sextet_char ((x mod 4) * 16 + y / 16))
           (String (sextet_char ((y mod 16) * 4))
              (String pad EmptyString)))
  | a :: b :: c :: rest =>
      let x := Byte.to_N a in
      let y := Byte.to_N b in
      let z := Byte.to_N c in
      String (sextet_char (x / 4))
        (String (sextet_char ((x mod 4) * 16 + y / 16))
           (String (sextet_char ((y mod 16) * 4 + z / 64))
              (String (sextet_char (z mod 64))
                 (encode rest))))
  end%N.

Definition bind {A B} (o : option A) (k : A -> option B) : option B :=
  match o with Some a => k a | None => None end.

(** The matching decoder: groups of four characters, padding only in the
    last group. *)
Fixpoint decode (s : string) : option (list byte) :=
  match s with
  | EmptyString => Some []
  | String c1 (String c2 (String c3 (String c4 rest))) =>
      bind (char_sextet c1) (fun s1 =>
      bind (char_sextet c2) (fun s2 =>
      bind (Byte.of_N (s1 * 4 + s2 / 16)) (fun a =>
      if Ascii.eqb c4 pad then
        match rest with
        | EmptyString =>
            if Ascii.eqb c3 pad then Some [a]
            else
              bind (char_sextet c3) (fun s3 =>
              bind (Byte.of_N ((s2 mod 16) * 16 + s3 / 4)) (fun b =>
              Some [a; b]))
        | String _ _ => None
        end
      else
        bind (char_sextet c3) (fun s3 =>
        bind (char_sextet c4) (fun s4 =>
        bind (Byte.of_N ((s2 mod 16) * 16 + s3 / 4)) (fun b =>
        bind (Byte.of_N ((s3 mod 4) * 64 + s4)) (fun c =>
        bind (decode rest) (fun tail =>
        Some (a :: b :: c :: tail)))))))))
  | _ => None
  end%N.

(** The check that [char_sextet] reads back what [sextet_char] writes,
    and that no sextet is written as the padding character. *)
Definition sextet_ok (n : N) : bool :=
  match char_sextet (sextet_char n) with
  | Some m => N.eqb m n
  | None => false
  end
  && negb (Ascii.eqb (sextet_char n) pad).

End Base64.

(* ================================================================= *)
(** ** Blobs and [blobToBase64] *)

(** A [Blob]: its bytes and its media type. *)
Record Blob : Type := mkBlob {
  blob_bytes : list byte;
  blob_type : string
}.

Definition blob_size (b : Blob) : nat := List.length (blob_bytes b).

(** The state of a promise: the first settlement wins, later calls of
    [resolve] or [reject] do nothing. *)
Inductive Settled (A : Type) : Type :=
| Pending
| Resolved (a : A)
| Rejected.
Arguments Pending {A}.
Arguments Resolved {A} a.
Arguments Rejected {A}.

Definition settle {A} (p new : Settled A) : Settled A :=
  match p with
  | Pending => new
  | _ => p
  end.

Module FileReader.

(** What the host does with [readAsDataURL]: whether the blob can be read
    at all, and how it writes the data URL of a blob of no bytes (the
    File API text gives the usual [data:<type>;base64,] with nothing after
    the comma; some engines give the bare [data:]). *)
Record Host : Type := mkHost {
  readable : bool;
  bare_empty_url : bool
}.

Definition media_type (b : Blob) : string :=
  match blob_type b with
  | EmptyString => "application/octet-stream"
  | t => t
  end.

Definition data_url (h : Host) (b : Blob) : string :=
  match blob_bytes b with
  | [] =>
      if bare_empty_url h then "data:"
      else "data:" ++ media_type b ++ ";base64,"
  | _ => "data:" ++ media_type b ++ ";base64," ++ Base64.encode (blob_bytes b)
  end.

(** [reader.result] once the read has ended: the data URL, or [null]
    after an error. *)
Definition result (h : Host) (b : Blob) : option string :=
  if readable h then Some (data_url h b) else None.

Inductive ProgressEvent : Type := EvLoad | EvError | EvLoadEnd.

(** The events of one read, in the order they are fired. *)
Definition events (h : Host) : list ProgressEvent :=
  if readable h then [EvLoad; EvLoadEnd] else [EvError; EvLoadEnd].

End FileReader.

(** [undefined] is [None]: [split(',')[1]] of a string with no comma. *)
Definition Base64Text : Type := option string.

(** [reader.onloadend]: with [reader.result] null the call of [split]
    throws inside the handler and the promise is left as it is. *)
Definition blobToBase64_onloadend (reader_result : option string)
    (p : Settled Base64Text) : Settled Base64Text :=
  match reader_result with
  | None => p
  | Some base64String =>
      let base64 := nth_error (JsString.split ","%char base64String) 1 in
      settle p (Resolved base64)
  end.

(** [reader.onerror = reject]. *)
Definition blobToBase64_onerror (p : Settled Base64Text) : Settled Base64Text :=
  settle p Rejected.

Definition blobToBase64_handle (reader_result : option string)
    (p : Settled Base64Text) (e : FileReader.ProgressEvent) : Settled Base64Text :=
  match e with
  | FileReader.EvLoad => p
  | FileReader.EvError => blobToBase64_onerror p
  | FileReader.EvLoadEnd => blobToBase64_onloadend reader_result p
  end.

(** [blobToBase64 blob]: the promise after the reader's events. *)
Definition blobToBase64 (h : FileReader.Host) (blob : Blob) : Settled Base64Text :=
  fold_left (blobToBase64_handle (FileReader.result h blob))
            (FileReader.events h) Pending.

(* ================================================================= *)
(** ** JSON values and [JSON.parse] *)

Module Json.

Set Warnings "-register-all".

(** A number of a JSON text, kept exact: (-1)^neg * mantissa * 10^exponent. *)
Record Number : Type := mkNumber {
  num_neg : bool;
  num_mantissa : N;
  num_exponent : Z
}.

Inductive Value : Type :=
| Null
| Bool (b : bool)
| Num (n : Number)
| Str (s : string)
| Arr (elements : list Value)
| Obj (members : list (string * Value)).

(** The value is read as a double; it is the double zero when it is at
    most half the least subnormal, 2^-1075 (a tie there rounds to even). *)
Definition reads_as_zero (n : Number) : bool :=
  let m := Z.of_N (num_mantissa n) in
  let e := num_exponent n in
  if (m =? 0)%Z then true
  else if (0 <=? e)%Z then false
  else (m * 2 ^ 1075 <=? 10 ^ (- e))%Z.

(** JS truthiness of a parsed value ([!result], [result && ...]). *)
Definition truthy (v : Value) : bool :=
  match v with
  | Null => false
  | Bool b => b
  | Num n => negb (reads_as_zero n)
  | Str s => JsString.truthy s
  | Arr _ => true
  | Obj _ => true
  end.

(** [o.name] on an object: of several members of one name the last one
    written is the property's value; [None] is [undefined]. *)
Fixpoint get_member (name : string) (members : list (string * Value))
    : option Value :=
  match members with
  | [] => None
  | (k, v) :: rest =>
      match get_member name rest with
      | Some later => Some later
      | None => if String.eqb k name then Some v else None
      end
  end.

Definition get_prop (name : string) (v : Value) : option Value :=
  match v with
  | Obj members => get_member name members
  | _ => None
  end.

(** *** Tokens *)

Inductive Token : Type :=
| TLBrace | TRBrace | TLBracket | TRBracket | TColon | TComma
| TString (s : string)
| TNumber (n : Number)
| TTrue | TFalse | TNull.

(** The content of a string literal while it is read: a character taken
    as it stands, or the UTF-16 code unit of a [\uXXXX] escape. *)
Inductive StrItem : Type :=
| Raw (c : ascii)
| Unit16 (u : N).

Definition chr (n : N) : ascii := ascii_of_N n.

(** The double quote. *)
Definition quote : ascii := "034"%char.

(** UTF-8 of a code point (a lone surrogate is written like any other
    three-byte code point). *)
Definition utf8 (cp : N) : string :=
  (if cp <? 128 then String (chr cp) EmptyString
   else if cp <? 2048 then
     String (chr (192 + cp / 64)) (String (chr (128 + cp mod 64)) EmptyString)
   else if cp <? 65536 then
     String (chr (224 + cp / 4096))
       (String (chr (128 + (cp / 64) mod 64))
          (String (chr (128 + cp mod 64)) EmptyString))
   else
     String (chr (240 + cp / 262144))
       (String (chr (128 + (cp / 4096) mod 64))
          (String (chr (128 + (cp / 64) mod 64))
             (String (chr (128 + cp mod 64)) EmptyString))))%N.

Definition is_high_surrogate (u : N) : bool := ((55296 <=? u) && (u <=? 56319))%N.
Definition is_low_surrogate (u : N) : bool := ((56320 <=? u) && (u <=? 57343))%N.

(** The text of a string literal; a high surrogate directly followed by
    a low one is one code point. *)
Fixpoint render (items : list StrItem) : string :=
  match items with
  | [] => EmptyString
  | Raw c :: rest => String c (render rest)
  | Unit16 u :: rest =>
      match rest with
      | Unit16 lo :: rest' =>
          if is_high_surrogate u && is_low_surrogate lo
          then utf8 (65536 + (u - 55296) * 1024 + (lo - 56320))%N ++ render rest'
          else utf8 u ++ render rest
      | _ => utf8 u ++ render rest
      end
  end.

Definition digit_value (c : ascii) : option N :=
  let n := N_of_ascii c in
  (if (48 <=? n) && (n <=? 57) then Some (n - 48) else None)%N.

Definition hex_value (c : ascii) : option N :=
  let n := N_of_ascii c in
  (if (48 <=? n) && (n <=? 57) then Some (n - 48)
   else if (65 <=? n) && (n <=? 70) then Some (n - 55)
   else if (97 <=? n) && (n <=? 102) then Some (n - 87)
   else None)%N.

(** The leading digits of [cs]: their value, how many there are, and what
    follows them. *)
Fixpoint span_digits (acc : N) (count : nat) (cs : list ascii)
    : N * nat * list ascii :=
  match cs with
  | [] => (acc, count, [])
  | c :: rest =>
      match digit_value c with
      | Some d => span_digits (acc * 10 + d)%N (S count) rest
      | None => (acc, count, cs)
      end
  end.

(** A whole number lexeme: an optional minus; a zero, or digits that do
    not start with a zero; optionally a point and digits; optionally an
    [e] or [E], a sign and digits. *)
Definition parse_number (cs : list ascii) : option Number :=
  let '(neg, cs1) :=
    match cs with
    | "-"%char :: r => (true, r)
    | _ => (false, cs)
    end in
  let leading_zero :=
    match cs1 with "0"%char :: _ => true | _ => false end in
  let '(int_part, int_len, cs2) := span_digits 0 0 cs1 in
  if (int_len =? 0)%nat || (leading_zero && negb (int_len =? 1)%nat) then None
  else
    let frac :=
      match cs2 with
      | "."%char :: r =>
          let '(m, frac_len, cs3) := span_digits int_part 0 r in
          if (frac_len =? 0)%nat then None else Some (m, frac_len, cs3)
      | _ => Some (int_part, 0%nat, cs2)
      end in
    match frac with
    | None => None
    | Some (m, frac_len, cs3) =>
        let scale := (- Z.of_nat frac_len)%Z in
        let exp_digits (sign : Z) (r : list ascii) :=
          let '(e, e_len, cs4) := span_digits 0 0 r in
          match e_len, cs4 with
          | S _, [] => Some (mkNumber neg m (scale + sign * Z.of_N e))
          | _, _ => None
          end in
        match cs3 with
        | [] => Some (mkNumber neg m scale)
        | c :: r =>
            if Ascii.eqb c "e" || Ascii.eqb c "E" then
              match r with
              | "+"%char :: r' => exp_digits 1%Z r'
              | "-"%char :: r' => exp_digits (-1)%Z r'
              | _ => exp_digits 1%Z r
              end
            else None
        end
    end.

(** *** The lexer, one character at a time *)

Inductive LexMode : Type :=
| LDefault
| LWord (acc : list ascii)
| LNumber (acc : list ascii)
| LString (acc : list StrItem)
| LEscape (acc : list StrItem)
| LHex (acc : list StrItem) (read : nat) (v : N).

Definition is_space (c : ascii) : bool :=
  let n := N_of_ascii c in
  ((n =? 32) || (n =? 9) || (n =? 10) || (n =? 13))%N.

Definition is_lower (c : ascii) : bool :=
  let n := N_of_ascii c in ((97 <=? n) && (n <=? 122))%N.

Definition is_number_char (c : ascii) : bool :=
  match digit_value c with
  | Some _ => true
  | None =>
      Ascii.eqb c "-" || Ascii.eqb c "+" || Ascii.eqb c "."
      || Ascii.eqb c "e" || Ascii.eqb c "E"
  end.

Definition word_token (acc : list ascii) : option Token :=
  let w := string_of_list_ascii (rev acc) in
  if String.eqb w "true" then Some TTrue
  else if String.eqb w "false" then Some TFalse
  else if String.eqb w "null" then Some TNull
  else None.

Definition number_token (acc : list ascii) : option Token :=
  option_map TNumber (parse_number (rev acc)).

(** A character met between tokens.  Tokens are collected last first. *)
Definition lex_default (toks : list Token) (c : ascii)
    : option (LexMode * list Token) :=
  if is_space c then Some (LDefault, toks)
  else if Ascii.eqb c "{" then Some (LDefault, TLBrace :: toks)
  else if Ascii.eqb c "}" then Some (LDefault, TRBrace :: toks)
  else if Ascii.eqb c "[" then Some (LDefault, TLBracket :: toks)
  else if Ascii.eqb c "]" then Some (LDefault, TRBracket :: toks)
  else if Ascii.eqb c ":" then Some (LDefault, TColon :: toks)
  else if Ascii.eqb c "," then Some (LDefault, TComma :: toks)
  else if Ascii.eqb c quote then Some (LString [], toks)
  else if is_number_char c then Some (LNumber [c], toks)
  else if is_lower c then Some (LWord [c], toks)
  else None.

Definition escape_char (c : ascii) : option ascii :=
  if Ascii.eqb c quote || Ascii.eqb c "\" || Ascii.eqb c "/" then Some c
  else if Ascii.eqb c "b" then Some (chr 8)
  else if Ascii.eqb c "f" then Some (chr 12)
  else if Ascii.eqb c "n" then Some (chr 10)
  else if Ascii.eqb c "r" then Some (chr 13)
  else if Ascii.eqb c "t" then Some (chr 9)
  else None.

Definition lex_step (st : LexMode * list Token) (c : ascii)
    : option (LexMode * list Token) :=
  let '(mode, toks) := st in
  match mode with
  | LDefault => lex_default toks c
  | LWord acc =>
      if is_lower c then Some (LWord (c :: acc), toks)
      else match word_token acc with
           | Some t => lex_default (t :: toks) c
           | None => None
           end
  | LNumber acc =>
      if is_number_char c then Some (LNumber (c :: acc), toks)
      else match number_token acc with
           | Some t => lex_default (t :: toks) c
           | None => None
           end
  | LString acc =>
      if Ascii.eqb c quote then Some (LDefault, TString (render (rev acc)) :: toks)
      else if Ascii.eqb c "\" then Some (LEscape acc, toks)
      else if (N_of_ascii c <? 32)%N then None
      else Some (LString (Raw c :: acc), toks)
  | LEscape acc =>
      if Ascii.eqb c "u" then Some (LHex acc 0 0%N, toks)
      else match escape_char c with
           | Some d => Some (LString (Raw d :: acc), toks)
           | None => None
           end
  | LHex acc read v =>
      match hex_value c with
      | Some d =>
          let v' := (v * 16 + d)%N in
          if (read =? 3)%nat then Some (LString (Unit16 v' :: acc), toks)
          else Some (LHex acc (S read) v', toks)
      | None => None
      end
  end.

Fixpoint lex_chars (st : LexMode * list Token) (cs : list ascii)
    : option (LexMode * list Token) :=
  match cs with
  | [] => Some st
  | c :: rest =>
      match lex_step st c with
      | Some st' => lex_chars st' rest
      | None => None
      end
  end.

(** The tokens of a text, first first; [None] for a text that is not
    made of JSON tokens. *)
Definition lex (s : string) : option (list Token) :=
  match lex_chars (LDefault, []) (list_ascii_of_string s) with
  | Some (LDefault, toks) => Some (rev toks)
  | Some (LWord acc, toks) => option_map (fun t => rev (t :: toks)) (word_token acc)
  | Some (LNumber acc, toks) => option_map (fun t => rev (t :: toks)) (number_token acc)
  | _ => None
  end.

(** *** The parser, one token at a time *)

(** An array or object that is still open, with what it holds so far
    (last first). *)
Inductive Frame : Type :=
| FArr (elements : list Value)
| FObj (members : list (string * Value)) (key : string).

Inductive ParseState : Type :=
| PValue (stack : list Frame)
| PArrStart (stack : list Frame)
| PArrNext (elements : list Value) (stack : list Frame)
| PObjStart (stack : list Frame)
| PObjKey (members : list (string * Value)) (stack : list Frame)
| PObjColon (members : list (string * Value)) (key : string) (stack : list Frame)
| PObjNext (members : list (string * Value)) (stack : list Frame)
| PEnd (v : Value).

(** A value is complete: it goes to the innermost open container. *)
Definition complete (v : Value) (stack : list Frame) : ParseState :=
  match stack with
  | [] => PEnd v
  | FArr elements :: stack' => PArrNext (v :: elements) stack'
  | FObj members key :: stack' => PObjNext ((key, v) :: members) stack'
  end.

Definition parse_value (stack : list Frame) (t : Token) : option ParseState :=
  match t with
  | TNull => Some (complete Null stack)
  | TTrue => Some (complete (Bool true) stack)
  | TFalse => Some (complete (Bool false) stack)
  | TNumber n => Some (complete (Num n) stack)
  | TString s => Some (complete (Str s) stack)
  | TLBracket => Some (PArrStart stack)
  | TLBrace => Some (PObjStart stack)
  | _ => None
  end.

Definition parse_step (st : ParseState) (t : Token) : option ParseState :=
  match st, t with
  | PValue stack, _ => parse_value stack t
  | PArrStart stack, TRBracket => Some (complete (Arr []) stack)
  | PArrStart stack, _ => parse_value (FArr [] :: stack) t
  | PArrNext elements stack, TComma => Some (PValue (FArr elements :: stack))
  | PArrNext elements stack, TRBracket => Some (complete (Arr (rev elements)) stack)
  | PObjStart stack, TRBrace => Some (complete (Obj []) stack)
  | PObjStart stack, TString key => Some (PObjColon [] key stack)
  | PObjKey members stack, TString key => Some (PObjColon members key stack)
  | PObjColon members key stack, TColon => Some (PValue (FObj members key :: stack))
  | PObjNext members stack, TComma => Some (PObjKey members stack)
  | PObjNext members stack, TRBrace => Some (complete (Obj (rev members)) stack)
  | _, _ => None
  end.

Fixpoint parse_tokens (st : ParseState) (ts : list Token) : option ParseState :=
  match ts with
  | [] => Some st
  | t :: rest =>
      match parse_step st t with
      | Some st' => parse_tokens st' rest
      | None => None
      end
  end.

(** [JSON.parse(text)]: the value, or [None] where it throws a
    [SyntaxError]. *)
Definition parse (text : string) : option Value :=
  match lex text with
  | None => None
  | Some ts =>
      match parse_tokens (PValue []) ts with
      | Some (PEnd v) => Some v
      | _ => None
      end
  end.

End Json.

(* ================================================================= *)
(** ** The component's state *)

(** The six [useState] cells of [App].  [result] holds whatever
    [JSON.parse] returned; [null] is [Json.Null]. *)
Record AppState : Type := mkAppState {
  isRecording : bool;
  isProcessing : bool;
  audioUrl : option string;
  audioBlob : option Blob;
  result : Json.Value;
  error : option string
}.

Definition setIsRecording (v : bool) (s : AppState) : AppState :=
  mkAppState v (isProcessing s) (audioUrl s) (audioBlob s) (result s) (error s).
Definition setIsProcessing (v : bool) (s : AppState) : AppState :=
  mkAppState (isRecording s) v (audioUrl s) (audioBlob s) (result s) (error s).
Definition setAudioUrl (v : option string) (s : AppState) : AppState :=
  mkAppState (isRecording s) (isProcessing s) v (audioBlob s) (result s) (error s).
Definition setAudioBlob (v : option Blob) (s : AppState) : AppState :=
  mkAppState (isRecording s) (isProcessing s) (audioUrl s) v (result s) (error s).
Definition setResult (v : Json.Value) (s : AppState) : AppState :=
  mkAppState (isRecording s) (isProcessing s) (audioUrl s) (audioBlob s) v (error s).
Definition setError (v : option string) (s : AppState) : AppState :=
  mkAppState (isRecording s) (isProcessing s) (audioUrl s) (audioBlob s) (result s) v.

Definition initialState : AppState :=
  mkAppState false false None None Json.Null None.

Definition microphone_message : string :=
  "يرجى السماح بالوصول إلى الميكروفون للتسجيل.".
Definition processing_message : string :=
  "حدث خطأ أثناء المعالجة. يرجى المحاولة مرة أخرى.".

(** The request of [ai.models.generateContent]. *)
Record Request : Type := mkRequest {
  req_model : string;
  req_mimeType : string;
  req_data : Base64Text;
  req_text : string;
  req_responseMimeType : string;
  req_required : list string
}.

Definition instruction : string :=
  "You are a professional academic translator. Transcribe the Arabic audio exactly, then translate it into professional academic English.".

Definition translation_request (base64Audio : Base64Text) : Request :=
  mkRequest "gemini-2.5-flash" "audio/webm" base64Audio instruction
            "application/json" ["transcription"; "translation"].

(** What a handler asks of the browser. *)
Inductive Effect : Type :=
| GetUserMedia
| NewMediaRecorder (id : nat)
| RecorderStart (id : nat)
| RecorderStop (id : nat)
| StopTracks (id : nat)
| CreateObjectURL (b : Blob)
| ReadAsDataURL (b : Blob)
| GenerateContent (req : Request)
| ConsoleError (label : string).

(** A state of a [MediaRecorder]: [Stopping] is after [stop()] and before
    its [stop] event. *)
Inductive RecorderState : Type := RecRecording | RecStopping | RecInactive.

(** Whether the recorder's last [dataavailable] and its [stop] event can
    still come: after [stop()], and also while it records, since a
    recorder stops by itself when its tracks end or when it fails. *)
Definition stop_event_due (r : RecorderState) : bool :=
  match r with
  | RecInactive => false
  | _ => true
  end.

(** The component with its refs and with what is outstanding: the recorders
    it created (a recorder's id is its place in [recorders], and its stream
    has the same id), and the calls of its async handlers that are waiting
    at an [await]. *)
Record World : Type := mkWorld {
  app : AppState;
  mediaRecorderRef : option nat;
  chunksRef : list Blob;
  recorders : list RecorderState;
  awaitingMedia : nat;
  awaitingEncode : list Blob;
  awaitingRemote : list Request
}.

Definition with_app (f : AppState -> AppState) (w : World) : World :=
  mkWorld (f (app w)) (mediaRecorderRef w) (chunksRef w) (recorders w)
          (awaitingMedia w) (awaitingEncode w) (awaitingRemote w).
Definition set_mediaRecorderRef (v : option nat) (w : World) : World :=
  mkWorld (app w) v (chunksRef w) (recorders w)
          (awaitingMedia w) (awaitingEncode w) (awaitingRemote w).
Definition set_chunksRef (v : list Blob) (w : World) : World :=
  mkWorld (app w) (mediaRecorderRef w) v (recorders w)
          (awaitingMedia w) (awaitingEncode w) (awaitingRemote w).
Definition set_recorders (v : list RecorderState) (w : World) : World :=
  mkWorld (app w) (mediaRecorderRef w) (chunksRef w) v
          (awaitingMedia w) (awaitingEncode w) (awaitingRemote w).
Definition set_awaitingMedia (v : nat) (w : World) : World :=
  mkWorld (app w) (mediaRecorderRef w) (chunksRef w) (recorders w)
          v (awaitingEncode w) (awaitingRemote w).
Definition set_awaitingEncode (v : list Blob) (w : World) : World :=
  mkWorld (app w) (mediaRecorderRef w) (chunksRef w) (recorders w)
          (awaitingMedia w) v (awaitingRemote w).
Definition set_awaitingRemote (v : list Request) (w : World) : World :=
  mkWorld (app w) (mediaRecorderRef w) (chunksRef w) (recorders w)
          (awaitingMedia w) (awaitingEncode w) v.

Definition initialWorld : World :=
  mkWorld initialState None [] [] 0 [] [].

(** [l] with its [i]th element replaced (as it is when there is none). *)
Fixpoint replace_nth {A} (i : nat) (a : A) (l : list A) : list A :=
  match l, i with
  | [], _ => []
  | _ :: rest, O => a :: rest
  | x :: rest, S j => x :: replace_nth j a rest
  end.

(** [l] without its [i]th element. *)
Fixpoint remove_nth {A} (i : nat) (l : list A) : list A :=
  match l, i with
  | [], _ => []
  | _ :: rest, O => rest
  | x :: rest, S j => x :: remove_nth j rest
  end.

(* ================================================================= *)
(** ** [startRecording] *)

(** Up to [await navigator.mediaDevices.getUserMedia].  The host is taken
    to have [navigator.mediaDevices] (a secure context); where it has not,
    the call throws inside [try] and the [catch] block runs within the
    click, with the same state updates as for [MediaDenied]. *)
Definition startRecording (w : World) : World * list Effect :=
  let w := with_app (setError None) w in
  let w := with_app (setResult Json.Null) w in
  let w := with_app (setAudioUrl None) w in
  let w := with_app (setAudioBlob None) w in
  let w := set_chunksRef [] w in
  (set_awaitingMedia (S (awaitingMedia w)) w, [GetUserMedia]).

(** How the rest of the [try] block goes: the promise rejects, the
    recorder's constructor throws, its [start] throws, or all succeed. *)
Inductive MediaOutcome : Type :=
| MediaDenied
| RecorderConstructorThrew
| RecorderStartThrew
| MediaGranted.

Definition startRecording_catch (w : World) : World * list Effect :=
  (with_app (setError (Some microphone_message)) w,
   [ConsoleError "Error accessing microphone:"]).

(** From the [await] on. *)
Definition startRecording_resume (o : MediaOutcome) (w : World)
    : World * list Effect :=
  let w := set_awaitingMedia (pred (awaitingMedia w)) w in
  match o with
  | MediaDenied => startRecording_catch w
  | RecorderConstructorThrew => startRecording_catch w
  | RecorderStartThrew =>
      let id := List.length (recorders w) in
      let w := set_recorders (recorders w ++ [RecInactive])%list w in
      let w := set_mediaRecorderRef (Some id) w in
      let '(w, effs) := startRecording_catch w in
      (w, NewMediaRecorder id :: effs)
  | MediaGranted =>
      let id := List.length (recorders w) in
      let w := set_recorders (recorders w ++ [RecRecording])%list w in
      let w := set_mediaRecorderRef (Some id) w in
      let w := with_app (setIsRecording true) w in
      (w, [NewMediaRecorder id; RecorderStart id])
  end.

(** [mediaRecorder.ondataavailable]. *)
Definition ondataavailable (data : Blob) (w : World) : World :=
  if (0 <? blob_size data)%nat
  then set_chunksRef (chunksRef w ++ [data])%list w
  else w.

(** [new Blob(chunks, { type })]. *)
Definition new_Blob (chunks : list Blob) (type : string) : Blob :=
  mkBlob (List.concat (map blob_bytes chunks)) type.

(** [mediaRecorder.onstop] of recorder [id]; [url] is what
    [URL.createObjectURL] returns. *)
Definition onstop (id : nat) (url : string) (w : World) : World * list Effect :=
  let blob := new_Blob (chunksRef w) "audio/webm" in
  let w := with_app (setAudioBlob (Some blob)) w in
  let w := with_app (setAudioUrl (Some url)) w in
  (w, [CreateObjectURL blob; StopTracks id]).

(* ================================================================= *)
(** ** [stopRecording] *)

(** [recorder.stop()]. *)
Definition recorder_stop (id : nat) (w : World) : World :=
  match nth_error (recorders w) id with
  | Some RecRecording => set_recorders (replace_nth id RecStopping (recorders w)) w
  | _ => w
  end.

Definition stopRecording (w : World) : World * list Effect :=
  match mediaRecorderRef w with
  | Some id =>
      if isRecording (app w) then
        let w := recorder_stop id w in
        let w := with_app (setIsRecording false) w in
        (w, [RecorderStop id])
      else (w, [])
  | None => (w, [])
  end.

(* ================================================================= *)
(** ** [translateAudio] *)

(** Up to [await blobToBase64(audioBlob)]. *)
Definition translateAudio (w : World) : World * list Effect :=
  match audioBlob (app w) with
  | None => (w, [])
  | Some blob =>
      let w := with_app (setIsProcessing true) w in
      let w := with_app (setError None) w in
      (set_awaitingEncode (awaitingEncode w ++ [blob])%list w, [ReadAsDataURL blob])
  end.

Definition translateAudio_catch (s : AppState) : AppState * list Effect :=
  (setError (Some processing_message) s, [ConsoleError "Translation error:"]).

Definition translateAudio_finally (s : AppState) : AppState :=
  setIsProcessing false s.

(** How a stretch of the [try] block ends. *)
Inductive Completion : Type :=
| Normal (s : AppState)
| Thrown (s : AppState).

(** The [catch] block if something was thrown, then the [finally] block. *)
Definition translateAudio_leave (c : Completion) : AppState * list Effect :=
  match c with
  | Normal s => (translateAudio_finally s, [])
  | Thrown s =>
      let '(s, effs) := translateAudio_catch s in
      (translateAudio_finally s, effs)
  end.

(** From [await blobToBase64] to [await ai.models.generateContent]:
    [encoded] is the promise of [blobToBase64]; [client_ok] is false when
    [new GoogleGenAI] throws.  [None]: the handler is still waiting;
    [Some (w, effs, sent)]: it went on, and [sent] is the request it now
    waits for, if it sent one. *)
Definition translateAudio_encoded (encoded : Settled Base64Text) (client_ok : bool)
    (s : AppState) : option (AppState * list Effect * option Request) :=
  match encoded with
  | Pending => None
  | Rejected =>
      let '(s, effs) := translateAudio_leave (Thrown s) in Some (s, effs, None)
  | Resolved base64Audio =>
      if client_ok then
        let req := translation_request base64Audio in
        Some (s, [GenerateContent req], Some req)
      else
        let '(s, effs) := translateAudio_leave (Thrown s) in Some (s, effs, None)
  end.

(** How [await ai.models.generateContent] ends: it throws, or gives a
    response whose [text] is a string or [undefined]. *)
Inductive RemoteOutcome : Type :=
| RemoteRejected
| RemoteResponse (text : option string).

(** [if (jsonText)]. *)
Definition jsonText_truthy (jsonText : option string) : bool :=
  match jsonText with
  | None => false
  | Some t => JsString.truthy t
  end.

(** The [try] block from [await ai.models.generateContent] on. *)
Definition translateAudio_responded (o : RemoteOutcome) (s : AppState) : Completion :=
  match o with
  | RemoteRejected => Thrown s
  | RemoteResponse jsonText =>
      match jsonText with
      | Some t =>
          if JsString.truthy t then
            match Json.parse t with
            | Some v => Normal (setResult v s)
            | None => Thrown s
            end
          else Normal s
      | None => Normal s
      end
  end.

(* ================================================================= *)
(** ** [reset] *)

Definition reset (s : AppState) : AppState :=
  let s := setResult Json.Null s in
  let s := setAudioBlob None s in
  let s := setAudioUrl None s in
  setError None s.

(* ================================================================= *)
(** ** What React makes of the result *)

(** A value as a child of an element: a string or a number is text, null
    and the booleans are nothing, an array is its elements one after the
    other; a plain object is refused (React throws). *)
Fixpoint valid_child (v : Json.Value) : bool :=
  match v with
  | Json.Obj _ => false
  | Json.Arr elements => forallb valid_child elements
  | _ => true
  end.

(** [undefined] is a child like null. *)
Definition valid_prop (o : option Json.Value) : bool :=
  match o with
  | Some v => valid_child v
  | None => true
  end.

(** The render throws: [result] is truthy, so [{result.transcription}]
    and [{result.translation}] are evaluated as children, and one of them
    is not a valid child.  The component has no error boundary: React
    unmounts the root and nothing of the page is left. *)
Definition render_throws (s : AppState) : bool :=
  Json.truthy (result s)
  && negb (valid_prop (Json.get_prop "transcription" (result s))
           && valid_prop (Json.get_prop "translation" (result s))).

(** What [{result && (...)}] puts into the tree: the panel with the two
    fields for a truthy [result]; the text 0 for the number zero (a falsy
    number is rendered as text); nothing for null, false and the empty
    string. *)
Inductive ResultArea : Type :=
| AreaEmpty
| AreaZero
| AreaPanel (transcription translation : option Json.Value).

Definition result_area (s : AppState) : ResultArea :=
  if Json.truthy (result s)
  then AreaPanel (Json.get_prop "transcription" (result s))
                 (Json.get_prop "translation" (result s))
  else match result s with
       | Json.Num _ => AreaZero
       | _ => AreaEmpty
       end.

(** The result area of the page; [None] when the render throws and the
    root is unmounted. *)
Definition shown (s : AppState) : option ResultArea :=
  if render_throws s then None else Some (result_area s).

(* ================================================================= *)
(** ** The rendered tree: which buttons there are *)

Inductive Button : Type :=
| MainButton        (* the round microphone / stop button *)
| RerecordButton    (* the small button beside the audio player *)
| TranslateButton
| ResetButton.

(** Whether the button is in the tree rendered from [s]: in no tree at
    all when the render throws, else by the conditions of the JSX. *)
Definition rendered (s : AppState) (b : Button) : bool :=
  negb (render_throws s)
  && match b with
     | MainButton => negb (Json.truthy (result s))
     | RerecordButton =>
         negb (Json.truthy (result s)) && negb (isRecording s)
         && match audioBlob s with Some _ => true | None => false end
     | TranslateButton =>
         negb (Json.truthy (result s))
         && match audioBlob s with Some _ => true | None => false end
         && negb (isRecording s)
     | ResetButton => Json.truthy (result s)
     end.

(** Its [disabled] attribute. *)
Definition disabled (s : AppState) (b : Button) : bool :=
  match b with
  | MainButton => isProcessing s
  | RerecordButton => false
  | TranslateButton => isProcessing s
  | ResetButton => false
  end.

Definition clickable (s : AppState) (b : Button) : bool :=
  rendered s b && negb (disabled s b).

(** Its [onClick]. *)
Definition onClick (b : Button) (w : World) : World * list Effect :=
  match b with
  | MainButton => if isRecording (app w) then stopRecording w else startRecording w
  | RerecordButton => startRecording w
  | TranslateButton => translateAudio w
  | ResetButton => (with_app reset w, [])
  end.

(** What the result panel shows, when it is rendered:
    [result.transcription] and [result.translation]. *)
Definition displayed (s : AppState) : option (option Json.Value * option Json.Value) :=
  match shown s with
  | Some (AreaPanel transcription translation) => Some (transcription, translation)
  | _ => None
  end.

(* ================================================================= *)
(** ** The page as a transition system *)

(** What can happen to the page: a click on a button, or one of the things
    its handlers wait for.  An event meets the tree rendered from the
    current state: the state updates of a handler are rendered before the
    next event is handled. *)
Inductive Event : Type :=
| Click (b : Button)
| MediaSettled (o : MediaOutcome)
| RecorderStopped (id : nat) (data : Blob) (url : string)
| EncodeSettled (i : nat) (h : FileReader.Host) (client_ok : bool)
| RemoteSettled (i : nat) (o : RemoteOutcome).

(** One event: the world after it and the effects of the handler it ran;
    [None] when the event cannot happen in [w]. *)
Definition dispatch (w : World) (e : Event) : option (World * list Effect) :=
  match e with
  | Click b =>
      if clickable (app w) b then Some (onClick b w) else None
  | MediaSettled o =>
      match awaitingMedia w with
      | O => None
      | S _ => Some (startRecording_resume o w)
      end
  | RecorderStopped id data url =>
      match nth_error (recorders w) id with
      | Some r =>
          if stop_event_due r then
            let w := set_recorders (replace_nth id RecInactive (recorders w)) w in
            let w := ondataavailable data w in
            Some (onstop id url w)
          else None
      | None => None
      end
  | EncodeSettled i h client_ok =>
      match nth_error (awaitingEncode w) i with
      | Some blob =>
          match translateAudio_encoded (blobToBase64 h blob) client_ok (app w) with
          | Some (s, effs, sent) =>
              let w := set_awaitingEncode (remove_nth i (awaitingEncode w)) w in
              let w := with_app (fun _ => s) w in
              let w :=
                match sent with
                | Some req => set_awaitingRemote (awaitingRemote w ++ [req])%list w
                | None => w
                end in
              Some (w, effs)
          | None => None
          end
      | None => None
      end
  | RemoteSettled i o =>
      match nth_error (awaitingRemote w) i with
      | Some _ =>
          let '(s, effs) := translateAudio_leave (translateAudio_responded o (app w)) in
          let w := set_awaitingRemote (remove_nth i (awaitingRemote w)) w in
          Some (with_app (fun _ => s) w, effs)
      | None => None
      end
  end.

(** The worlds the page can be in. *)
Inductive reachable : World -> Prop :=
| reachable_init : reachable initialWorld
| reachable_step w e w' effs :
    reachable w -> dispatch w e = Some (w', effs) -> reachable w'.

(** A run: the events one after the other, the effects in order. *)
Fixpoint run (w : World) (es : list Event) : option (World * list Effect) :=
  match es with
  | [] => Some (w, [])
  | e :: rest =>
      match dispatch w e with
      | Some (w', effs) =>
          match run w' rest with
          | Some (w'', effs') => Some (w'', (effs ++ effs')%list)
          | None => None
          end
      | None => None
      end
  end.

(** One submission with nothing else happening meanwhile: the click, the
    end of the encoding, and, if a request was sent, its end. *)
Record Submission : Type := mkSubmission {
  sub_host : FileReader.Host;
  sub_client_ok : bool;
  sub_remote : RemoteOutcome
}.

Definition submit (env : Submission) (s : AppState) : AppState * list Effect :=
  match audioBlob s with
  | None => (s, [])
  | Some blob =>
      let s := setIsProcessing true s in
      let s := setError None s in
      match translateAudio_encoded (blobToBase64 (sub_host env) blob)
                                   (sub_client_ok env) s with
      | None => (s, [ReadAsDataURL blob])
      | Some (s, effs, None) => (s, ReadAsDataURL blob :: effs)
      | Some (s, effs, Some _) =>
          let '(s, effs') :=
            translateAudio_leave (translateAudio_responded (sub_remote env) s) in
          (s, ReadAsDataURL blob :: (effs ++ effs')%list)
      end
  end.

(* ================================================================= *)
(** ** What the statements speak of *)

(** The label that the [catch] block of [translateAudio] writes to the
    console: it is in the effects exactly when that block ran. *)
Definition translation_error : Effect := ConsoleError "Translation error:".

(** One of the two fields that the response schema requires is missing. *)
Definition missing_required_field (v : Json.Value) : bool :=
  match Json.get_prop "transcription" v, Json.get_prop "translation" v with
  | Some _, Some _ => false
  | _, _ => true
  end.

(** The calls of [translateAudio] that are waiting at an [await]. *)
Definition outstanding (w : World) : nat :=
  List.length (awaitingEncode w) + List.length (awaitingRemote w).

(** [isProcessing] says exactly whether a call of [translateAudio] is
    outstanding, and there is never more than one. *)
Definition processing_invariant (w : World) : Prop :=
  outstanding w = if isProcessing (app w) then 1 else 0.

(** Every blob the page holds as its capture, or is encoding, was made by
    [onstop] with the type [audio/webm]. *)
Definition captures_are_webm (w : World) : Prop :=
  (forall b, audioBlob (app w) = Some b -> blob_type b = "audio/webm")
  /\ Forall (fun b => blob_type b = "audio/webm") (awaitingEncode w).

(** The part of the world the invariant reads. *)
Definition same_submissions (w w' : World) : Prop :=
  isProcessing (app w') = isProcessing (app w)
  /\ awaitingEncode w' = awaitingEncode w
  /\ awaitingRemote w' = awaitingRemote w.

(* ================================================================= *)
(** ** Sample blobs, hosts, submissions and worlds *)

Definition webm (bytes : list byte) : Blob := mkBlob bytes "audio/webm".

Definition reading_host : FileReader.Host := FileReader.mkHost true false.
Definition bare_host : FileReader.Host := FileReader.mkHost true true.
Definition failing_host : FileReader.Host := FileReader.mkHost false false.

(** A world with a capture and a recorder that has stopped: the page after
    one recording. *)
Definition capturedWorld : World :=
  mkWorld (mkAppState false false (Some "blob:1") (Some (webm [x01; xff; x10; x41]))
                      Json.Null None)
          (Some 0%nat) [webm [x01; xff; x10; x41]] [RecInactive] 0 [] [].

Definition capturedState : AppState := app capturedWorld.

(** [s] between double quotes. *)
Definition quoted (s : string) : string :=
  String Json.quote (s ++ String Json.quote EmptyString).

(** The response text [{ transcription : مرحبا }], with its key and its
    value as JSON strings and no [translation]. *)
Definition partial_text : string :=
  "{" ++ quoted "transcription" ++ ":" ++ quoted "مرحبا" ++ "}".

Definition partial_value : Json.Value :=
  Json.Obj [("transcription", Json.Str "مرحبا")].

Definition partial_submission : Submission :=
  mkSubmission reading_host true (RemoteResponse (Some partial_text)).

Definition unreadable_submission : Submission :=
  mkSubmission failing_host true RemoteRejected.

Definition empty_submission : Submission :=
  mkSubmission reading_host true (RemoteResponse (Some EmptyString)).

(** One recording: start, the microphone is granted, stop, the recorder
    hands over its data. *)
Definition recording_events : list Event :=
  [ Click MainButton; MediaSettled MediaGranted; Click MainButton;
    (RecorderStopped 0 (webm [x01; xff; x10; x41]) "blob:1") ].

(** A recording that yields no data, and its submission up to the
    request. *)
Definition empty_capture_events : list Event :=
  [ Click MainButton; MediaSettled MediaGranted; Click MainButton;
    (RecorderStopped 0 (webm []) "blob:1");
    Click TranslateButton; EncodeSettled 0 reading_host true ].

(** The whole session, from the first click to the answer of the remote
    call. *)
Definition session (answer : RemoteOutcome) : list Event :=
  (recording_events ++ [ Click TranslateButton; EncodeSettled 0 reading_host true;
                         RemoteSettled 0 answer ])%list.

(** The page while the remote call of the first submission is
    outstanding. *)
Definition processing_events : list Event :=
  (recording_events ++ [ Click TranslateButton; EncodeSettled 0 reading_host true ])%list.

Definition processingWorld : World :=
  match run initialWorld processing_events with
  | Some (w, _) => w
  | None => initialWorld
  end.

(* ================================================================= *)
(** ** Invariants and sample worlds of the further properties *)

(** While [isRecording] is true the ref holds a recorder, and the ref
    always names a recorder that was created. *)
Definition recorder_ref_invariant (w : World) : Prop :=
  (isRecording (app w) = true -> mediaRecorderRef w <> None)
  /\ (forall id, mediaRecorderRef w = Some id -> id < List.length (recorders w)).

(** Recorder [i] is recording and the ref has moved on to a later
    recorder. *)
Definition orphaned (i : nat) (w : World) : Prop :=
  nth_error (recorders w) i = Some RecRecording
  /\ exists j, mediaRecorderRef w = Some j /\ i < j.

(** No result is held while a submission is processing. *)
Definition no_result_while_processing (w : World) : Prop :=
  isProcessing (app w) = true -> Json.truthy (result (app w)) = false.

(** The playback URL and the capture are there together or not at all. *)
Definition url_with_blob (s : AppState) : Prop :=
  audioUrl s = None <-> audioBlob s = None.

(** The world after the events [es] from the start of the page. *)
Definition world_after (es : list Event) : World :=
  match run initialWorld es with
  | Some (w, _) => w
  | None => initialWorld
  end.

(** Two clicks on the microphone before the first permission arrives, and
    both permissions granted. *)
Definition double_start_events : list Event :=
  [ Click MainButton; Click MainButton;
    MediaSettled MediaGranted; MediaSettled MediaGranted ].

Definition doubleStartWorld : World := world_after double_start_events.

(** The page while it records. *)
Definition recordingWorld : World :=
  world_after [ Click MainButton; MediaSettled MediaGranted ].

(** The page between [stop()] and the recorder's [stop] event. *)
Definition stoppingWorld : World :=
  world_after [ Click MainButton; MediaSettled MediaGranted; Click MainButton ].

(** The page while the first submission waits for [blobToBase64]. *)
Definition encodingWorld : World :=
  world_after (recording_events ++ [ Click TranslateButton ])%list.

(** A response with both fields. *)
Definition complete_text : string :=
  "{" ++ quoted "transcription" ++ ":" ++ quoted "مرحبا" ++ ","
      ++ quoted "translation" ++ ":" ++ quoted "Hello" ++ "}".

Definition complete_value : Json.Value :=
  Json.Obj [("transcription", Json.Str "مرحبا"); ("translation", Json.Str "Hello")].

Definition complete_submission : Submission :=
  mkSubmission reading_host true (RemoteResponse (Some complete_text)).

(** A response that is the JSON text [null]. *)
Definition null_submission : Submission :=
  mkSubmission reading_host true (RemoteResponse (Some "null")).

(** A response that is not JSON. *)
Definition garbled_submission : Submission :=
  mkSubmission reading_host true (RemoteResponse (Some "not json")).

(** The events in which [translateAudio] runs: the click that calls it and
    the ends of its two [await]s. *)
Definition is_translate_event (e : Event) : bool :=
  match e with
  | Click TranslateButton => true
  | EncodeSettled _ _ _ => true
  | RemoteSettled _ _ => true
  | _ => false
  end.

(** The events that start no recording and end none: the steps of
    [translateAudio], and a [getUserMedia] that is not granted.  (A click
    on the microphone, re-record or reset button, a granted microphone and
    a recorder's stop event are the others.) *)
Definition leaves_recording_alone (e : Event) : bool :=
  match e with
  | Click TranslateButton => true
  | EncodeSettled _ _ _ => true
  | RemoteSettled _ _ => true
  | MediaSettled MediaGranted => false
  | MediaSettled _ => true
  | _ => false
  end.

(** While a submission is processing, [error] is not the message of a
    failed submission. *)
Definition no_failure_message_while_processing (w : World) : Prop :=
  isProcessing (app w) = true -> error (app w) <> Some processing_message.

(** Recorder [i] was created and the ref has moved on to a later one. *)
Definition left_behind (i : nat) (w : World) : Prop :=
  i < List.length (recorders w)
  /\ exists j, mediaRecorderRef w = Some j /\ i < j.

(** The stop event of recorder [i]. *)
Definition is_stop_event_of (i : nat) (e : Event) : bool :=
  match e with
  | RecorderStopped id _ _ => Nat.eqb id i
  | _ => false
  end.


(** A submission during which the re-record button is clicked and the
    microphone refused, and whose answer then has an empty text. *)
Definition rerecord_silent_events : list Event :=
  (recording_events
     ++ [ Click TranslateButton; EncodeSettled 0 reading_host true;
          Click RerecordButton; MediaSettled MediaDenied;
          RemoteSettled 0 (RemoteResponse (Some EmptyString)) ])%list.

(** A capture made while a second request for the microphone, from a
    second click before the first was granted, is still pending. *)
Definition pending_grant_events : list Event :=
  [ Click MainButton; Click MainButton; MediaSettled MediaGranted;
    Click MainButton; (RecorderStopped 0 (webm [x01; xff; x10; x41]) "blob:1") ].


(** A submission of that capture with no click while it is processing:
    the pending request is refused, and the answer has an empty text. *)
Definition late_denial_silent_events : list Event :=
  (pending_grant_events
     ++ [ Click TranslateButton; EncodeSettled 0 reading_host true;
          MediaSettled MediaDenied;
          RemoteSettled 0 (RemoteResponse (Some EmptyString)) ])%list.

(** A response whose [translation] is an object. *)
Definition object_field_text : string :=
  "{" ++ quoted "transcription" ++ ":" ++ quoted "a" ++ ","
      ++ quoted "translation" ++ ":{" ++ quoted "en" ++ ":" ++ quoted "x" ++ "}}".

Definition object_field_value : Json.Value :=
  Json.Obj [("transcription", Json.Str "a");
            ("translation", Json.Obj [("en", Json.Str "x")])].

(* ================================================================= *)
(** * Properties *)

(** ** The tree and the render that throws *)

Lemma render_throws_truthy s :
  render_throws s = true -> Json.truthy (result s) = true.
Proof. unfold render_throws. intros H. now apply andb_prop in H as [H _]. Qed.

(** The buttons of the recording panel are rendered under [!result], and
    a render can throw only for a truthy [result]: for them the conditions
    of the JSX decide alone. *)
Lemma rendered_spec s b :
  rendered s b
  = match b with
    | MainButton => negb (Json.truthy (result s))
    | RerecordButton =>
        negb (Json.truthy (result s)) && negb (isRecording s)
        && match audioBlob s with Some _ => true | None => false end
    | TranslateButton =>
        negb (Json.truthy (result s))
        && match audioBlob s with Some _ => true | None => false end
        && negb (isRecording s)
    | ResetButton => Json.truthy (result s) && negb (render_throws s)
    end.
Proof.
  unfold rendered. destruct (render_throws s) eqn:Hthrows.
  - rewrite (render_throws_truthy s Hthrows). destruct b; reflexivity.
  - destruct b; cbn; try reflexivity. now rewrite andb_true_r.
Qed.

(** Nothing is rendered once the render has thrown. *)
Lemma unmounted_no_button s b :
  render_throws s = true -> rendered s b = false /\ clickable s b = false.
Proof. intros H. unfold clickable, rendered. rewrite H. split; reflexivity. Qed.

(** ** Splitting at a separator *)

Module JsStringFacts.
Import JsString.

Lemma split_not_nil sep s : split sep s <> [].
Proof.
  destruct s as [|c rest]; simpl; [discriminate|].
  destruct (Ascii.eqb c sep); [discriminate|].
  destruct (split sep rest); discriminate.
Qed.

Lemma append_assoc (a b c : string) : (a ++ b) ++ c = a ++ (b ++ c).
Proof. induction a as [|d a IH]; simpl; [reflexivity | now rewrite IH]. Qed.

Lemma mem_append c a b : mem c (a ++ b) = mem c a || mem c b.
Proof.
  induction a as [|d a IH]; simpl; [reflexivity|].
  rewrite IH. now rewrite orb_assoc.
Qed.

(** A string without the separator is one piece. *)
Lemma split_without sep s : mem sep s = false -> split sep s = [s].
Proof.
  induction s as [|c rest IH]; simpl; intros H; [reflexivity|].
  apply orb_false_iff in H as [Hc Hrest].
  rewrite Hc, (IH Hrest). reflexivity.
Qed.

(** The first piece ends at the first separator. *)
Lemma split_at_first sep a b :
  mem sep a = false -> split sep (a ++ String sep b) = a :: split sep b.
Proof.
  induction a as [|c a IH]; simpl; intros H.
  - now rewrite Ascii.eqb_refl.
  - apply orb_false_iff in H as [Hc Ha].
    rewrite Hc, (IH Ha). reflexivity.
Qed.

Lemma mem_get i s c : String.get i s = Some c -> mem c s = true.
Proof.
  revert i; induction s as [|d s IH]; intros [|i] H; simpl in *; try discriminate.
  - injection H as ->. now rewrite Ascii.eqb_refl.
  - rewrite (IH _ H). apply orb_true_r.
Qed.

End JsStringFacts.

(** ** Base64: decoding undoes encoding *)

Module Base64Facts.
Import Base64.

Lemma all_sextets_ok :
  forallb sextet_ok (map N.of_nat (seq 0 64)) = true.
Proof. vm_compute. reflexivity. Qed.

Lemma sextet_ok_below n : (n < 64)%N -> sextet_ok n = true.
Proof.
  intros H.
  apply (proj1 (forallb_forall _ _) all_sextets_ok).
  apply in_map_iff. exists (N.to_nat n). split.
  - apply N2Nat.id.
  - apply in_seq. lia.
Qed.

Lemma char_sextet_char n : (n < 64)%N -> char_sextet (sextet_char n) = Some n.
Proof.
  intros H. pose proof (sextet_ok_below n H) as Hok.
  unfold sextet_ok in Hok. apply andb_prop in Hok as [Hok _].
  destruct (char_sextet (sextet_char n)) as [m|]; [|discriminate].
  apply N.eqb_eq in Hok. now subst.
Qed.

Lemma sextet_char_not_pad n : (n < 64)%N -> Ascii.eqb (sextet_char n) pad = false.
Proof.
  intros H. pose proof (sextet_ok_below n H) as Hok.
  unfold sextet_ok in Hok. apply andb_prop in Hok as [_ Hok].
  now apply negb_true_iff in Hok.
Qed.

(** No character of an encoding is a comma. *)
Lemma sextet_char_not_comma n : Ascii.eqb (sextet_char n) ","%char = false.
Proof.
  unfold sextet_char.
  destruct (String.get (N.to_nat n) alphabet) as [c|] eqn:Hget; [|reflexivity].
  destruct (Ascii.eqb c ",") eqn:Hc; [|reflexivity].
  apply Ascii.eqb_eq in Hc. subst c.
  apply JsStringFacts.mem_get in Hget. vm_compute in Hget. discriminate.
Qed.

Lemma encode_no_comma bs : JsString.mem ","%char (encode bs) = false.
Proof.
  revert bs.
  fix IH 1. intros [|a [|b [|c rest]]].
  - reflexivity.
  - cbn [encode JsString.mem]. now rewrite !sextet_char_not_comma.
  - cbn [encode JsString.mem]. now rewrite !sextet_char_not_comma.
  - cbn [encode JsString.mem]. rewrite !sextet_char_not_comma, (IH rest).
    reflexivity.
Qed.

(** *** The arithmetic of one group: bytes [x], [y], [z] *)

Lemma quot_lt x d q : (d <> 0)%N -> (x < d * q)%N -> (x / d < q)%N.
Proof. intros Hd H. apply N.Div0.div_lt_upper_bound. exact H. Qed.

Lemma s1_lt x : (x <= 255)%N -> (x / 4 < 64)%N.
Proof. intros. apply quot_lt; lia. Qed.

Lemma y16_lt y : (y <= 255)%N -> (y / 16 < 16)%N.
Proof. intros. apply quot_lt; lia. Qed.

Lemma z64_lt z : (z <= 255)%N -> (z / 64 < 4)%N.
Proof. intros. apply quot_lt; lia. Qed.

Lemma s2_lt x r : (r < 16)%N -> (x mod 4 * 16 + r < 64)%N.
Proof. intros. pose proof (N.mod_lt x 4). lia. Qed.

Lemma s3_lt y r : (r < 4)%N -> (y mod 16 * 4 + r < 64)%N.
Proof. intros. pose proof (N.mod_lt y 16). lia. Qed.

Lemma s4_lt z : (z mod 64 < 64)%N.
Proof. apply N.mod_lt. lia. Qed.

(** The first byte, from the first sextet and the high bits of the
    second. *)
Lemma first_byte x r :
  (r < 16)%N -> (x / 4 * 4 + (x mod 4 * 16 + r) / 16 = x)%N.
Proof.
  intros Hr.
  replace (x mod 4 * 16 + r)%N with (r + x mod 4 * 16)%N by lia.
  rewrite N.div_add by lia. rewrite (N.div_small r 16) by lia.
  pose proof (N.div_mod x 4). lia.
Qed.

(** The second byte, from the low bits of the second sextet and the high
    bits of the third. *)
Lemma second_byte x y r :
  (y <= 255)%N -> (r < 4)%N ->
  ((x mod 4 * 16 + y / 16) mod 16 * 16 + (y mod 16 * 4 + r) / 4 = y)%N.
Proof.
  intros Hy Hr.
  replace (x mod 4 * 16 + y / 16)%N with (y / 16 + x mod 4 * 16)%N by lia.
  rewrite N.Div0.mod_add. rewrite (N.mod_small (y / 16) 16) by now apply y16_lt.
  replace (y mod 16 * 4 + r)%N with (r + y mod 16 * 4)%N by lia.
  rewrite N.div_add by lia. rewrite (N.div_small r 4) by lia.
  pose proof (N.div_mod y 16). lia.
Qed.

(** The third byte, from the low bits of the third sextet and the
    fourth. *)
Lemma third_byte y z :
  (z <= 255)%N ->
  ((y mod 16 * 4 + z / 64) mod 4 * 64 + z mod 64 = z)%N.
Proof.
  intros Hz.
  replace (y mod 16 * 4 + z / 64)%N with (z / 64 + y mod 16 * 4)%N by lia.
  rewrite N.Div0.mod_add. rewrite (N.mod_small (z / 64) 4) by now apply z64_lt.
  pose proof (N.div_mod z 64). lia.
Qed.

Local Ltac bounds :=
  repeat match goal with
         | b : byte |- _ =>
             lazymatch goal with
             | _ : (Byte.to_N b <= 255)%N |- _ => fail
             | _ => pose proof (Byte.to_N_bounded b)
             end
         end.

Local Ltac sextets :=
  repeat first
    [ rewrite char_sextet_char
        by first [ now apply s1_lt
                 | apply s2_lt; first [now apply y16_lt | lia]
                 | apply s3_lt; first [now apply z64_lt | lia]
                 | apply s4_lt ]
    | rewrite sextet_char_not_pad
        by first [ apply s3_lt; first [now apply z64_lt | lia] | apply s4_lt ] ].

Lemma decode_encode bs : decode (encode bs) = Some bs.
Proof.
  revert bs. fix IH 1. intros [|a [|b [|c rest]]].
  - reflexivity.
  - bounds. cbn [encode].
    replace (Byte.to_N a mod 4 * 16)%N with (Byte.to_N a mod 4 * 16 + 0)%N by lia.
    cbn [decode]. sextets. cbn [bind].
    rewrite first_byte by lia. rewrite Byte.of_to_N. cbn [bind].
    rewrite !Ascii.eqb_refl. reflexivity.
  - bounds. cbn [encode].
    replace (Byte.to_N b mod 16 * 4)%N with (Byte.to_N b mod 16 * 4 + 0)%N by lia.
    cbn [decode]. sextets. cbn [bind].
    rewrite first_byte by now apply y16_lt.
    rewrite Byte.of_to_N. cbn [bind].
    rewrite Ascii.eqb_refl. sextets. cbn [bind].
    rewrite second_byte by lia. rewrite Byte.of_to_N. reflexivity.
  - bounds. cbn [encode decode]. sextets. cbn [bind].
    rewrite first_byte by now apply y16_lt.
    rewrite Byte.of_to_N. cbn [bind]. sextets. cbn [bind].
    rewrite second_byte by first [assumption | now apply z64_lt].
    rewrite Byte.of_to_N. cbn [bind].
    rewrite third_byte by assumption. rewrite Byte.of_to_N. cbn [bind].
    rewrite (IH rest). reflexivity.
Qed.

End Base64Facts.

(* ================================================================= *)
(** ** [blobToBase64] *)

Lemma blobToBase64_readable h b :
  FileReader.readable h = true ->
  blobToBase64 h b =
    Resolved (nth_error (JsString.split ","%char (FileReader.data_url h b)) 1).
Proof.
  intros Hr. unfold blobToBase64, FileReader.events, FileReader.result.
  rewrite Hr. reflexivity.
Qed.

Lemma blobToBase64_unreadable h b :
  FileReader.readable h = false -> blobToBase64 h b = Rejected.
Proof.
  intros Hr. unfold blobToBase64, FileReader.events, FileReader.result.
  rewrite Hr. reflexivity.
Qed.

(** The promise is settled by the end of the read. *)
Lemma blobToBase64_settled h b : blobToBase64 h b <> Pending.
Proof.
  destruct (FileReader.readable h) eqn:Hr.
  - rewrite (blobToBase64_readable _ _ Hr). discriminate.
  - rewrite (blobToBase64_unreadable _ _ Hr). discriminate.
Qed.

Lemma media_type_no_comma b :
  JsString.mem ","%char (blob_type b) = false ->
  JsString.mem ","%char (FileReader.media_type b) = false.
Proof.
  unfold FileReader.media_type. destruct (blob_type b); [reflexivity|].
  intros H; exact H.
Qed.

(** With a media type free of commas, the piece after the first comma of
    the data URL is the whole payload. *)
Lemma data_url_payload mt payload :
  JsString.mem ","%char mt = false ->
  JsString.mem ","%char payload = false ->
  nth_error (JsString.split ","%char ("data:" ++ mt ++ ";base64," ++ payload)) 1
  = Some payload.
Proof.
  intros Hmt Hp.
  change (";base64," ++ payload) with (";base64" ++ String ","%char payload).
  replace ("data:" ++ mt ++ ";base64" ++ String ","%char payload)
    with (("data:" ++ mt ++ ";base64") ++ String ","%char payload).
  - rewrite JsStringFacts.split_at_first.
    + rewrite (JsStringFacts.split_without _ _ Hp). reflexivity.
    + rewrite !JsStringFacts.mem_append, Hmt. reflexivity.
  - now rewrite !JsStringFacts.append_assoc.
Qed.

Lemma blobToBase64_nonempty h b :
  FileReader.readable h = true ->
  blob_bytes b <> [] ->
  JsString.mem ","%char (blob_type b) = false ->
  blobToBase64 h b = Resolved (Some (Base64.encode (blob_bytes b))).
Proof.
  intros Hr Hne Hty. rewrite (blobToBase64_readable _ _ Hr).
  unfold FileReader.data_url.
  destruct (blob_bytes b) as [|x xs] eqn:Hb; [congruence|].
  rewrite data_url_payload.
  - reflexivity.
  - now apply media_type_no_comma.
  - apply Base64Facts.encode_no_comma.
Qed.

(** C2 (as amended): [blobToBase64] is a function of the blob and of what
    the host's reader does with it, and it fails exactly when the blob
    cannot be read.  Every readable blob, the empty one included, resolves:
    the empty blob with the empty text (or with [undefined] on a host that
    writes the bare [data:]), a blob of at least one byte with the base64
    text of its bytes (the media type having no comma). *)
Theorem blobToBase64_fails_iff_unreadable h b :
  (blobToBase64 h b = Rejected <-> FileReader.readable h = false)
  /\ (FileReader.readable h = true -> exists t, blobToBase64 h b = Resolved t)
  /\ (FileReader.readable h = true ->
      blob_bytes b = [] ->
      JsString.mem ","%char (blob_type b) = false ->
      blobToBase64 h b =
        Resolved (if FileReader.bare_empty_url h then None else Some EmptyString))
  /\ (FileReader.readable h = true ->
      blob_bytes b <> [] ->
      JsString.mem ","%char (blob_type b) = false ->
      blobToBase64 h b = Resolved (Some (Base64.encode (blob_bytes b)))).
Proof.
  repeat split.
  - intros Hrej. destruct (FileReader.readable h) eqn:Hr; [|reflexivity].
    rewrite (blobToBase64_readable _ _ Hr) in Hrej. discriminate.
  - apply blobToBase64_unreadable.
  - intros Hr. rewrite (blobToBase64_readable _ _ Hr). eauto.
  - intros Hr Hb Hty. rewrite (blobToBase64_readable _ _ Hr).
    unfold FileReader.data_url. rewrite Hb.
    destruct (FileReader.bare_empty_url h); [reflexivity|].
    change ("data:" ++ FileReader.media_type b ++ ";base64,")
      with ("data:" ++ FileReader.media_type b ++ ";base64," ++ EmptyString).
    rewrite data_url_payload; [reflexivity | now apply media_type_no_comma | reflexivity].
  - apply blobToBase64_nonempty.
Qed.

Lemma blobToBase64_fails_iff_unreadable_witness :
  blobToBase64 reading_host (webm [x01; xff; x10; x41]) = Resolved (Some "Af8QQQ==")
  /\ blobToBase64 failing_host (webm [x01; xff; x10; x41]) = Rejected.
Proof.
  pose proof (blobToBase64_fails_iff_unreadable reading_host (webm [x01; xff; x10; x41]))
    as (_ & _ & _ & Hne).
  pose proof (blobToBase64_fails_iff_unreadable failing_host (webm [x01; xff; x10; x41]))
    as ([_ Hrej] & _).
  split.
  - rewrite Hne; [reflexivity | reflexivity | discriminate | reflexivity].
  - apply Hrej. reflexivity.
Defined.

(** C2 as stated fails: the empty blob is read without error, and the
    promise resolves (with the empty text, or with [undefined] where the
    host writes the bare [data:]) instead of failing. *)
Lemma blobToBase64_empty_blob_resolves :
  blob_bytes (webm []) = []
  /\ blobToBase64 reading_host (webm []) = Resolved (Some EmptyString)
  /\ blobToBase64 bare_host (webm []) = Resolved None
  /\ blobToBase64 reading_host (webm []) <> Rejected
  /\ blobToBase64 bare_host (webm []) <> Rejected
  /\ option_map (fun r => (audioBlob (app (fst r)), error (app (fst r)), snd r))
       (run initialWorld empty_capture_events)
     = Some (Some (webm []), None,
             [ GetUserMedia; NewMediaRecorder 0; RecorderStart 0; RecorderStop 0;
               CreateObjectURL (webm []); StopTracks 0; ReadAsDataURL (webm []);
               GenerateContent (translation_request (Some EmptyString)) ]).
Proof. vm_compute. repeat split; discriminate. Qed.

(** A comma in the media type is where [split(',')[1]] goes wrong: the
    page never makes such a blob (see [reachable_captures_are_webm]). *)
Lemma blobToBase64_comma_in_type :
  blobToBase64 reading_host (mkBlob [x01] "a,b") = Resolved (Some "b;base64").
Proof. vm_compute. reflexivity. Qed.

(** C4: for a readable blob of at least one byte (its media type, here
    always [audio/webm], having no comma), [blobToBase64] resolves with a
    text that the base64 decoder turns back into the bytes of the blob. *)
Theorem blobToBase64_round_trip h b :
  FileReader.readable h = true ->
  blob_bytes b <> [] ->
  JsString.mem ","%char (blob_type b) = false ->
  exists text,
    blobToBase64 h b = Resolved (Some text)
    /\ Base64.decode text = Some (blob_bytes b).
Proof.
  intros Hr Hne Hty. exists (Base64.encode (blob_bytes b)). split.
  - now apply blobToBase64_nonempty.
  - apply Base64Facts.decode_encode.
Qed.

Lemma blobToBase64_round_trip_witness :
  exists text,
    blobToBase64 reading_host (webm [x01; xff; x10; x41]) = Resolved (Some text)
    /\ Base64.decode text = Some [x01; xff; x10; x41]%list.
Proof.
  apply (blobToBase64_round_trip reading_host (webm [x01; xff; x10; x41])).
  - reflexivity.
  - discriminate.
  - reflexivity.
Defined.

(* ================================================================= *)
(** ** The handlers *)

(** C5: [reset] leaves no capture and no result: [audioBlob], [audioUrl]
    and [result] are null after it (and so is [error]), from every state,
    so from every state in which the reset button is there to click. *)
Theorem reset_clears_capture_and_result s :
  audioBlob (reset s) = None
  /\ audioUrl (reset s) = None
  /\ result (reset s) = Json.Null
  /\ error (reset s) = None
  /\ isRecording (reset s) = isRecording s
  /\ isProcessing (reset s) = isProcessing s.
Proof. repeat split. Qed.

(** The same, for the click on the reset button. *)
Lemma click_reset_clears w w' effs :
  dispatch w (Click ResetButton) = Some (w', effs) ->
  audioBlob (app w') = None /\ audioUrl (app w') = None
  /\ result (app w') = Json.Null /\ effs = [].
Proof.
  simpl. destruct (clickable (app w) ResetButton); [|discriminate].
  intros H. injection H as <- <-. repeat split.
Qed.

(** C7: as soon as [startRecording] has begun (before it waits for the
    microphone), [audioBlob], [audioUrl] and [result] are null, whatever
    they were; [error] and the collected chunks are cleared too. *)
Theorem startRecording_discards_previous w :
  let w' := fst (startRecording w) in
  audioBlob (app w') = None
  /\ audioUrl (app w') = None
  /\ result (app w') = Json.Null
  /\ error (app w') = None
  /\ chunksRef w' = [].
Proof. repeat split. Qed.

(** C8: with no capture ([audioBlob] null) [translateAudio] returns at
    once: the world is as it was, nothing is read or encoded, no request
    is sent.  (The button that calls it is not rendered then.) *)
Theorem translateAudio_without_capture w :
  audioBlob (app w) = None ->
  translateAudio w = (w, [])
  /\ (forall env, submit env (app w) = (app w, []))
  /\ clickable (app w) TranslateButton = false.
Proof.
  intros H. repeat apply conj.
  - unfold translateAudio. now rewrite H.
  - intros env. unfold submit. now rewrite H.
  - unfold clickable. rewrite rendered_spec, H. now rewrite andb_false_r.
Qed.

Lemma translateAudio_without_capture_witness :
  translateAudio initialWorld = (initialWorld, [])
  /\ (forall env, submit env initialState = (initialState, []))
  /\ clickable initialState TranslateButton = false.
Proof. apply (translateAudio_without_capture initialWorld). reflexivity. Defined.

(** C9: while [isRecording] is false, [stopRecording] does nothing: the
    world (state cells, refs, recorders) is as it was and no recorder is
    asked to stop. *)
Theorem stopRecording_when_not_recording w :
  isRecording (app w) = false ->
  stopRecording w = (w, []).
Proof.
  intros H. unfold stopRecording. rewrite H.
  destruct (mediaRecorderRef w); reflexivity.
Qed.

Lemma stopRecording_when_not_recording_witness :
  stopRecording capturedWorld = (capturedWorld, []).
Proof. apply (stopRecording_when_not_recording capturedWorld). reflexivity. Defined.

(* ================================================================= *)
(** ** One submission *)

(** [submit] is what the page does from the click on the translate button
    to the end of [translateAudio] when nothing else happens meanwhile. *)
Lemma submit_as_run env w :
  awaitingEncode w = [] -> awaitingRemote w = [] ->
  clickable (app w) TranslateButton = true ->
  exists es w',
    run w es = Some (w', snd (submit env (app w)))
    /\ app w' = fst (submit env (app w))
    /\ awaitingEncode w' = [] /\ awaitingRemote w' = [].
Proof.
  intros He Hr Hc.
  pose proof (blobToBase64_settled (sub_host env)) as Hsettled.
  destruct w as [s ref chunks recs media enc rem]. simpl in He, Hr, Hc. subst enc rem.
  destruct env as [h client_ok remote]. simpl in Hsettled.
  unfold submit. simpl.
  destruct (audioBlob s) as [blob|] eqn:Hblob.
  2:{ unfold clickable in Hc. rewrite rendered_spec in Hc. simpl in Hc. rewrite Hblob in Hc.
      rewrite andb_false_r in Hc. discriminate. }
  specialize (Hsettled blob).
  destruct (blobToBase64 h blob) as [|base64Audio|] eqn:Hb64; [congruence| |].
  - destruct client_ok.
    + exists [Click TranslateButton; EncodeSettled 0 h true; RemoteSettled 0 remote].
      simpl. rewrite Hc. unfold translateAudio. simpl. rewrite Hblob. simpl.
      rewrite Hb64. simpl.
      destruct (translateAudio_leave _) as [s' effs'] eqn:Hleave.
      simpl. eexists. split; [rewrite ?app_nil_r; reflexivity | repeat split].
    + exists [Click TranslateButton; EncodeSettled 0 h false].
      simpl. rewrite Hc. unfold translateAudio. simpl. rewrite Hblob. simpl.
      rewrite Hb64. simpl. eexists. split; [rewrite ?app_nil_r; reflexivity | repeat split].
  - exists [Click TranslateButton; EncodeSettled 0 h client_ok].
    simpl. rewrite Hc. unfold translateAudio. simpl. rewrite Hblob. simpl.
    rewrite Hb64. simpl. eexists. split; [rewrite ?app_nil_r; reflexivity | repeat split].
Qed.

Lemma parse_empty : Json.parse EmptyString = None.
Proof. reflexivity. Qed.

Lemma parsed_text_truthy t v : Json.parse t = Some v -> JsString.truthy t = true.
Proof. destruct t; [rewrite parse_empty; discriminate | reflexivity]. Qed.

(** C1 as stated fails: the response [partial_text] has a [transcription] but no
    [translation], and [translateAudio] ends with that object as [result],
    shown in the result panel, and with no error message. *)
Lemma partial_response_not_failed :
  Json.parse partial_text = Some partial_value
  /\ Json.get_prop "translation" partial_value = None
  /\ missing_required_field partial_value = true
  /\ error (fst (submit partial_submission capturedState)) = None
  /\ result (fst (submit partial_submission capturedState)) = partial_value
  /\ displayed (fst (submit partial_submission capturedState))
     = Some (Some (Json.Str "مرحبا"), None)
  /\ option_map (fun r => app (fst r))
       (run initialWorld (session (RemoteResponse (Some partial_text))))
     = Some (fst (submit partial_submission capturedState)).
Proof. vm_compute. repeat split. Qed.

(** What the error path of [translateAudio] writes, and what it leaves. *)
Lemma translateAudio_failure_frame env s :
  In translation_error (snd (submit env s)) ->
  let s' := fst (submit env s) in
  error s' = Some processing_message
  /\ isProcessing s' = false
  /\ audioBlob s' = audioBlob s
  /\ audioUrl s' = audioUrl s
  /\ result s' = result s
  /\ isRecording s' = isRecording s.
Proof.
  unfold submit, translation_error.
  destruct (audioBlob s) as [blob|] eqn:Hblob; [|intros []].
  destruct (blobToBase64 (sub_host env) blob) as [|base64Audio|]; simpl.
  - intros [H|[]]; discriminate.
  - destruct (sub_client_ok env); simpl.
    + destruct (sub_remote env) as [|[t|]]; simpl.
      * intros _. repeat split; assumption.
      * destruct (JsString.truthy t); simpl.
        -- destruct (Json.parse t); simpl.
           ++ intros [H|[H|[]]]; discriminate.
           ++ intros _. repeat split; assumption.
        -- intros [H|[H|[]]]; discriminate.
      * intros [H|[H|[]]]; discriminate.
    + intros _. repeat split; assumption.
  - intros _. repeat split; assumption.
Qed.

(** The error path is taken exactly when the blob cannot be read, the
    client cannot be built, the remote call throws, or its non-empty text
    is not JSON. *)
Lemma translateAudio_failure_cases env s blob :
  audioBlob s = Some blob ->
  In translation_error (snd (submit env s)) <->
  FileReader.readable (sub_host env) = false
  \/ sub_client_ok env = false
  \/ sub_remote env = RemoteRejected
  \/ exists t, sub_remote env = RemoteResponse (Some t)
               /\ JsString.truthy t = true /\ Json.parse t = None.
Proof.
  intros Hblob. unfold submit, translation_error. rewrite Hblob.
  destruct (FileReader.readable (sub_host env)) eqn:Hr.
  - rewrite (blobToBase64_readable _ _ Hr). simpl.
    destruct (sub_client_ok env); simpl.
    + destruct (sub_remote env) as [|[t|]]; simpl.
      * split; [intros _; right; right; left; reflexivity | intros _; auto].
      * destruct (JsString.truthy t) eqn:Ht; simpl.
        -- destruct (Json.parse t) eqn:Hp; simpl.
           ++ split.
              ** intros [H|[H|[]]]; discriminate.
              ** intros [H|[H|[H|(t' & H & _ & Hp')]]]; try discriminate.
                 injection H as <-. congruence.
           ++ split; [|intros _; auto].
              intros _. right; right; right. exists t. auto.
        -- split.
           ++ intros [H|[H|[]]]; discriminate.
           ++ intros [H|[H|[H|(t' & H & Ht' & _)]]]; try discriminate.
              injection H as <-. congruence.
      * split.
        -- intros [H|[H|[]]]; discriminate.
        -- intros [H|[H|[H|(t' & H & _)]]]; discriminate.
    + split; [intros _; right; left; reflexivity | intros _; auto].
  - rewrite (blobToBase64_unreadable _ _ Hr). simpl.
    split; [intros _; left; reflexivity | intros _; auto].
Qed.

(* ================================================================= *)
(** ** No second submission while one is processing *)

Lemma same_submissions_invariant w w' :
  same_submissions w w' -> processing_invariant w -> processing_invariant w'.
Proof.
  intros (Hp & He & Hr). unfold processing_invariant, outstanding.
  now rewrite Hp, He, Hr.
Qed.

Lemma startRecording_same w : same_submissions w (fst (startRecording w)).
Proof. repeat split. Qed.

Lemma recorder_stop_same id w : same_submissions w (recorder_stop id w).
Proof.
  unfold recorder_stop.
  destruct (nth_error (recorders w) id) as [[| |]|]; repeat split.
Qed.

Lemma stopRecording_same w : same_submissions w (fst (stopRecording w)).
Proof.
  unfold stopRecording.
  destruct (mediaRecorderRef w) as [id|]; [|repeat split].
  destruct (isRecording (app w)); [|repeat split].
  destruct (recorder_stop_same id w) as (Hp & He & Hr).
  simpl. repeat split; assumption.
Qed.

Lemma startRecording_resume_same o w :
  same_submissions w (fst (startRecording_resume o w)).
Proof. destruct o; repeat split. Qed.

Lemma ondataavailable_same data w : same_submissions w (ondataavailable data w).
Proof.
  unfold ondataavailable. destruct (0 <? blob_size data)%nat; repeat split.
Qed.

Lemma length_remove_nth {A} i (l : list A) x :
  nth_error l i = Some x -> S (List.length (remove_nth i l)) = List.length l.
Proof.
  revert i. induction l as [|y l IH]; intros [|i] H; simpl in *; try discriminate.
  - reflexivity.
  - now rewrite (IH i H).
Qed.

Lemma translateAudio_leave_not_processing c :
  isProcessing (fst (translateAudio_leave c)) = false.
Proof. destruct c; reflexivity. Qed.

(** Every event keeps the invariant. *)
Lemma dispatch_invariant w e w' effs :
  processing_invariant w -> dispatch w e = Some (w', effs) -> processing_invariant w'.
Proof.
  intros Hinv Hstep. destruct e as [b|o|id data url|i h client_ok|i o]; simpl in Hstep.
  - (* a click *)
    destruct (clickable (app w) b) eqn:Hc; [|discriminate].
    injection Hstep as Hstep.
    assert (Hw' : w' = fst (onClick b w)) by now rewrite Hstep.
    subst w'. clear Hstep effs.
    destruct b; simpl.
    + destruct (isRecording (app w)).
      * exact (same_submissions_invariant _ _ (stopRecording_same w) Hinv).
      * exact (same_submissions_invariant _ _ (startRecording_same w) Hinv).
    + exact (same_submissions_invariant _ _ (startRecording_same w) Hinv).
    + unfold clickable in Hc. rewrite rendered_spec in Hc. simpl in Hc.
      apply andb_prop in Hc as [Hrendered Hproc].
      apply negb_true_iff in Hproc.
      unfold processing_invariant, outstanding in *. rewrite Hproc in Hinv.
      unfold translateAudio.
      destruct (audioBlob (app w)) as [blob|].
      * simpl. destruct (awaitingEncode w); [|simpl in Hinv; lia].
        destruct (awaitingRemote w); [|simpl in Hinv; lia]. reflexivity.
      * simpl. now rewrite Hproc.
    + unfold processing_invariant, outstanding in *. exact Hinv.
  - (* the microphone *)
    destruct (awaitingMedia w); [discriminate|].
    injection Hstep as Hstep.
    assert (Hw' : w' = fst (startRecording_resume o w)) by now rewrite Hstep.
    subst w'.
    exact (same_submissions_invariant _ _ (startRecording_resume_same o w) Hinv).
  - (* a recorder has stopped *)
    destruct (nth_error (recorders w) id) as [r|]; [|discriminate].
    destruct (stop_event_due r); [|discriminate].
    injection Hstep as <- _.
    unfold processing_invariant, outstanding in *. simpl.
    destruct (ondataavailable_same data
                (set_recorders (replace_nth id RecInactive (recorders w)) w))
      as (Hp & He & Hr).
    simpl in Hp, He, Hr. now rewrite Hp, He, Hr.
  - (* the encoding has ended *)
    destruct (nth_error (awaitingEncode w) i) as [blob|] eqn:Hnth; [|discriminate].
    pose proof (length_remove_nth _ _ _ Hnth) as Hlen.
    unfold processing_invariant, outstanding in *.
    destruct (isProcessing (app w)) eqn:Hproc; [|lia].
    unfold translateAudio_encoded in Hstep.
    destruct (blobToBase64 h blob) as [|base64Audio|]; [discriminate| |].
    + destruct client_ok.
      * injection Hstep as <- _. simpl.
        rewrite Hproc, length_app. simpl. lia.
      * injection Hstep as <- _. simpl. lia.
    + injection Hstep as <- _. simpl. lia.
  - (* the remote call has ended *)
    destruct (nth_error (awaitingRemote w) i) as [req|] eqn:Hnth; [|discriminate].
    pose proof (length_remove_nth _ _ _ Hnth) as Hlen.
    unfold processing_invariant, outstanding in *.
    destruct (isProcessing (app w)) eqn:Hproc; [|lia].
    pose proof (translateAudio_leave_not_processing
                  (translateAudio_responded o (app w))) as Hleave.
    destruct (translateAudio_leave (translateAudio_responded o (app w)))
      as [s effs'].
    injection Hstep as <- _. simpl in *. rewrite Hleave. lia.
Qed.

Lemma reachable_invariant w : reachable w -> processing_invariant w.
Proof.
  induction 1 as [|w e w' effs _ IH Hstep].
  - reflexivity.
  - exact (dispatch_invariant _ _ _ _ IH Hstep).
Qed.

Lemma run_reachable es : forall w w' effs,
  reachable w -> run w es = Some (w', effs) -> reachable w'.
Proof.
  induction es as [|e es IH]; intros w w' effs Hw Hrun; simpl in Hrun.
  - injection Hrun as <- _. exact Hw.
  - destruct (dispatch w e) as [[w1 effs1]|] eqn:Hstep; [|discriminate].
    destruct (run w1 es) as [[w2 effs2]|] eqn:Hrest; [|discriminate].
    injection Hrun as <- _.
    exact (IH _ _ _ (reachable_step _ _ _ _ Hw Hstep) Hrest).
Qed.

(** C3: in every world the page can reach, at most one call of
    [translateAudio] is outstanding, one is outstanding exactly while
    [isProcessing] is true, and while it is true the translate button is
    disabled: a click on it is not an event of the page, so no second
    encoding or remote call is started. *)
Theorem no_double_submission w :
  reachable w ->
  outstanding w <= 1
  /\ (0 < outstanding w <-> isProcessing (app w) = true)
  /\ (isProcessing (app w) = true ->
      clickable (app w) TranslateButton = false
      /\ dispatch w (Click TranslateButton) = None).
Proof.
  intros Hreach. pose proof (reachable_invariant w Hreach) as Hinv.
  unfold processing_invariant in Hinv.
  split; [|split].
  - destruct (isProcessing (app w)); lia.
  - destruct (isProcessing (app w)); split; intros H;
      first [reflexivity | discriminate | lia].
  - intros Hproc.
    assert (Hc : clickable (app w) TranslateButton = false).
    { unfold clickable. rewrite rendered_spec. simpl. rewrite Hproc. apply andb_false_r. }
    split; [exact Hc|]. simpl. now rewrite Hc.
Qed.

Lemma processingWorld_reachable : reachable processingWorld.
Proof.
  apply (run_reachable processing_events initialWorld processingWorld
           (match run initialWorld processing_events with
            | Some (_, effs) => effs
            | None => []
            end)).
  - apply reachable_init.
  - vm_compute. reflexivity.
Qed.

Lemma no_double_submission_witness :
  outstanding processingWorld = 1
  /\ isProcessing (app processingWorld) = true
  /\ dispatch processingWorld (Click TranslateButton) = None.
Proof.
  destruct (no_double_submission processingWorld processingWorld_reachable)
    as (_ & [Hout _] & Hgate).
  assert (Hone : 0 < outstanding processingWorld) by (vm_compute; lia).
  split; [vm_compute; reflexivity|].
  split.
  - apply Hout. exact Hone.
  - apply Hgate. apply Hout. exact Hone.
Defined.


(* ================================================================= *)
(** ** The blobs the page encodes *)

Lemma Forall_remove_nth {A} (P : A -> Prop) i (l : list A) :
  Forall P l -> Forall P (remove_nth i l).
Proof.
  intros H. revert i. induction H as [|x l Hx Hl IH]; intros [|i]; simpl.
  - constructor.
  - constructor.
  - exact Hl.
  - constructor; [exact Hx | apply IH].
Qed.

Lemma translateAudio_encoded_keeps_capture encoded client_ok s s' effs sent :
  translateAudio_encoded encoded client_ok s = Some (s', effs, sent) ->
  audioBlob s' = audioBlob s /\ audioUrl s' = audioUrl s.
Proof.
  unfold translateAudio_encoded.
  destruct encoded as [|base64Audio|]; [discriminate| |].
  - destruct client_ok; intros H; injection H as <- _ _; split; reflexivity.
  - intros H; injection H as <- _ _; split; reflexivity.
Qed.

Lemma translateAudio_responded_keeps_capture o s :
  let s' := fst (translateAudio_leave (translateAudio_responded o s)) in
  audioBlob s' = audioBlob s /\ audioUrl s' = audioUrl s.
Proof.
  destruct o as [|[t|]]; simpl; [split; reflexivity | | split; reflexivity].
  destruct (JsString.truthy t); [|split; reflexivity].
  destruct (Json.parse t); split; reflexivity.
Qed.

(** From [Some (handler w) = Some (w', effs)]: what [w'] and [effs] are. *)
Ltac handler_result H :=
  injection H as H;
  let Hw := fresh "Hw" in
  let He := fresh "Heffs" in
  pose proof (f_equal fst H) as Hw;
  pose proof (f_equal snd H) as He;
  cbn [fst snd] in Hw, He; clear H.

Lemma dispatch_captures_are_webm w e w' effs :
  captures_are_webm w -> dispatch w e = Some (w', effs) -> captures_are_webm w'.
Proof.
  intros [Hblob Henc] Hstep.
  destruct e as [b|o|id data url|i h client_ok|i o]; simpl in Hstep.
  - destruct (clickable (app w) b); [|discriminate].
    handler_result Hstep. subst w' effs.
    destruct b; simpl.
    + destruct (isRecording (app w)).
      * unfold stopRecording.
        destruct (mediaRecorderRef w) as [id|]; [|split; assumption].
        destruct (isRecording (app w)); [|split; assumption].
        unfold recorder_stop.
        destruct (nth_error (recorders w) id) as [[| |]|]; split; assumption.
      * split; [intros b Hb; discriminate | exact Henc].
    + split; [intros b Hb; discriminate | exact Henc].
    + unfold translateAudio.
      destruct (audioBlob (app w)) as [blob|] eqn:Hb;
        [|split; simpl; [rewrite Hb|]; assumption].
      split; simpl.
      * rewrite Hb. exact Hblob.
      * apply Forall_app. split; [exact Henc|].
        constructor; [apply Hblob; reflexivity | constructor].
    + split; [intros b Hb; discriminate | exact Henc].
  - destruct (awaitingMedia w); [discriminate|].
    handler_result Hstep. subst w' effs.
    destruct o; split; assumption.
  - destruct (nth_error (recorders w) id) as [r|]; [|discriminate].
    destruct (stop_event_due r); [|discriminate].
    injection Hstep as <- _. split.
    + simpl. intros b Hb. injection Hb as <-. reflexivity.
    + simpl. unfold ondataavailable.
      destruct (0 <? blob_size data)%nat; exact Henc.
  - destruct (nth_error (awaitingEncode w) i) as [blob|]; [|discriminate].
    destruct (translateAudio_encoded (blobToBase64 h blob) client_ok (app w))
      as [[[s effs'] sent]|] eqn:Henc'; [|discriminate].
    apply translateAudio_encoded_keeps_capture in Henc' as [Hsame _].
    injection Hstep as <- _. split.
    + destruct sent; simpl; rewrite Hsame; exact Hblob.
    + destruct sent; simpl; apply Forall_remove_nth; exact Henc.
  - destruct (nth_error (awaitingRemote w) i); [|discriminate].
    pose proof (translateAudio_responded_keeps_capture o (app w)) as [Hsame _].
    destruct (translateAudio_leave (translateAudio_responded o (app w))) as [s effs'].
    injection Hstep as <- _. split.
    + simpl. simpl in Hsame. rewrite Hsame. exact Hblob.
    + exact Henc.
Qed.

Lemma reachable_captures_are_webm w : reachable w -> captures_are_webm w.
Proof.
  induction 1 as [|w e w' effs _ IH Hstep].
  - split; [intros b Hb; discriminate | constructor].
  - exact (dispatch_captures_are_webm _ _ _ _ IH Hstep).
Qed.

(** On the page: when the encoding of a capture of at least one byte
    ends well, the request that is sent carries a text that decodes to the
    bytes of the capture. *)
Lemma encoded_capture_round_trip w i h blob :
  reachable w ->
  nth_error (awaitingEncode w) i = Some blob ->
  FileReader.readable h = true ->
  blob_bytes blob <> [] ->
  exists w' text,
    dispatch w (EncodeSettled i h true)
    = Some (w', [GenerateContent (translation_request (Some text))])
    /\ Base64.decode text = Some (blob_bytes blob).
Proof.
  intros Hreach Hnth Hr Hne.
  destruct (reachable_captures_are_webm w Hreach) as [_ Henc].
  assert (Hty : blob_type blob = "audio/webm").
  { apply nth_error_In in Hnth. exact (proj1 (Forall_forall _ _) Henc _ Hnth). }
  assert (Hcomma : JsString.mem ","%char (blob_type blob) = false)
    by now rewrite Hty.
  simpl. rewrite Hnth, (blobToBase64_nonempty h blob Hr Hne Hcomma). simpl.
  eexists. exists (Base64.encode (blob_bytes blob)).
  split; [reflexivity | apply Base64Facts.decode_encode].
Qed.

(** ** The error path, with anything happening meanwhile *)

(** Whatever else goes on, the step in which the [catch] block of
    [translateAudio] runs sets the error message, clears [isProcessing]
    and leaves the capture alone. *)
Lemma catch_step_keeps_capture w e w' effs :
  dispatch w e = Some (w', effs) ->
  In translation_error effs ->
  error (app w') = Some processing_message
  /\ isProcessing (app w') = false
  /\ audioBlob (app w') = audioBlob (app w)
  /\ audioUrl (app w') = audioUrl (app w).
Proof.
  unfold translation_error.
  intros Hstep Hin.
  destruct e as [b|o|id data url|i h client_ok|i o]; simpl in Hstep.
  - exfalso. destruct (clickable (app w) b); [|discriminate].
    handler_result Hstep. subst w' effs.
    destruct b; simpl in Hin.
    + destruct (isRecording (app w)) eqn:Hrec.
      * unfold stopRecording in Hin. rewrite Hrec in Hin.
        destruct (mediaRecorderRef w); simpl in Hin;
          [destruct Hin as [H|[]]; discriminate | exact Hin].
      * destruct Hin as [H|[]]; discriminate.
    + destruct Hin as [H|[]]; discriminate.
    + unfold translateAudio in Hin.
      destruct (audioBlob (app w)); simpl in Hin;
        [destruct Hin as [H|[]]; discriminate | exact Hin].
    + exact Hin.
  - exfalso. destruct (awaitingMedia w); [discriminate|].
    handler_result Hstep. subst w' effs.
    destruct o; simpl in Hin;
      repeat (destruct Hin as [Hin|Hin]; [discriminate|]); exact Hin.
  - exfalso. destruct (nth_error (recorders w) id) as [r|]; [|discriminate].
    destruct (stop_event_due r); [|discriminate].
    injection Hstep as _ <-.
    simpl in Hin. destruct Hin as [H|[H|[]]]; discriminate.
  - destruct (nth_error (awaitingEncode w) i) as [blob|]; [|discriminate].
    unfold translateAudio_encoded in Hstep.
    destruct (blobToBase64 h blob) as [|base64Audio|]; [discriminate| |].
    + destruct client_ok; injection Hstep as <- <-.
      * destruct Hin as [H|[]]; discriminate.
      * repeat split.
    + injection Hstep as <- <-. repeat split.
  - destruct (nth_error (awaitingRemote w) i); [|discriminate].
    destruct o as [|[t|]]; simpl in Hstep.
    + injection Hstep as <- <-. repeat split.
    + destruct (JsString.truthy t); simpl in Hstep.
      * destruct (Json.parse t); simpl in Hstep; injection Hstep as <- <-.
        -- destruct Hin.
        -- repeat split.
      * injection Hstep as <- <-. destruct Hin.
    + injection Hstep as <- <-. destruct Hin.
Qed.


(* ================================================================= *)
(** * Further properties of the page *)

(** ** Lists of recorders *)

Lemma nth_error_snoc {A} (l : list A) x :
  nth_error (l ++ [x])%list (List.length l) = Some x.
Proof. induction l as [|y l IH]; simpl; [reflexivity | exact IH]. Qed.

Lemma nth_error_snoc_before {A} (l : list A) x i y :
  nth_error l i = Some y -> nth_error (l ++ [x])%list i = Some y.
Proof.
  revert i. induction l as [|z l IH]; intros [|i] H; simpl in *;
    try discriminate; [exact H | exact (IH i H)].
Qed.

Lemma nth_error_some_lt {A} (l : list A) i y :
  nth_error l i = Some y -> i < List.length l.
Proof.
  revert i. induction l as [|z l IH]; intros [|i] H; simpl in *;
    try discriminate; [lia | apply IH in H; lia].
Qed.

Lemma length_replace_nth {A} i (a : A) l :
  List.length (replace_nth i a l) = List.length l.
Proof.
  revert i. induction l as [|x l IH]; intros [|i]; simpl;
    try reflexivity. now rewrite IH.
Qed.

Lemma nth_error_replace_nth_same {A} i (a : A) l x :
  nth_error l i = Some x -> nth_error (replace_nth i a l) i = Some a.
Proof.
  revert i. induction l as [|y l IH]; intros [|i] H; simpl in *;
    try discriminate; [reflexivity | exact (IH i H)].
Qed.

Lemma nth_error_replace_nth_other {A} i j (a : A) l :
  i <> j -> nth_error (replace_nth j a l) i = nth_error l i.
Proof.
  revert i j. induction l as [|y l IH]; intros [|i] [|j] H; simpl;
    try reflexivity; [congruence | apply IH; congruence].
Qed.

Lemma recorder_stop_length id w :
  List.length (recorders (recorder_stop id w)) = List.length (recorders w).
Proof.
  unfold recorder_stop.
  destruct (nth_error (recorders w) id) as [[| |]|]; simpl;
    try reflexivity. apply length_replace_nth.
Qed.

Lemma recorder_stop_keeps id w :
  app (recorder_stop id w) = app w
  /\ mediaRecorderRef (recorder_stop id w) = mediaRecorderRef w
  /\ chunksRef (recorder_stop id w) = chunksRef w
  /\ awaitingMedia (recorder_stop id w) = awaitingMedia w.
Proof.
  unfold recorder_stop.
  destruct (nth_error (recorders w) id) as [[| |]|]; repeat split.
Qed.

(** ** The ref and the recording flag *)

Lemma dispatch_recorder_ref w e w' effs :
  recorder_ref_invariant w -> dispatch w e = Some (w', effs) ->
  recorder_ref_invariant w'.
Proof.
  intros [Hrec Href] Hstep.
  destruct e as [b|o|id data url|i h client_ok|i o]; simpl in Hstep.
  - destruct (clickable (app w) b); [|discriminate].
    handler_result Hstep. subst w' effs.
    destruct b; simpl.
    + destruct (isRecording (app w)) eqn:Hr.
      * unfold stopRecording. rewrite Hr.
        destruct (mediaRecorderRef w) as [id|] eqn:Hid;
          [|exfalso; exact (Hrec eq_refl eq_refl)].
        destruct (recorder_stop_keeps id w) as (_ & Hsame & _).
        split; simpl.
        -- discriminate.
        -- rewrite recorder_stop_length, Hsame, Hid. exact Href.
      * split; simpl; [rewrite Hr; discriminate | exact Href].
    + split; simpl; assumption.
    + unfold translateAudio. destruct (audioBlob (app w)); split; simpl; assumption.
    + split; simpl; assumption.
  - destruct (awaitingMedia w); [discriminate|].
    handler_result Hstep. subst w' effs.
    destruct o; split; simpl; try assumption; try discriminate.
    + intros id H. injection H as <-. rewrite length_app. simpl. lia.
    + intros id H. injection H as <-. rewrite length_app. simpl. lia.
  - destruct (nth_error (recorders w) id) as [r|]; [|discriminate].
    destruct (stop_event_due r); [|discriminate].
    injection Hstep as <- _. unfold ondataavailable.
    destruct (0 <? blob_size data)%nat; split; simpl; try assumption;
      intros j Hj; rewrite length_replace_nth; exact (Href j Hj).
  - destruct (nth_error (awaitingEncode w) i) as [blob|]; [|discriminate].
    unfold translateAudio_encoded in Hstep.
    destruct (blobToBase64 h blob) as [|base64Audio|]; [discriminate| |].
    + destruct client_ok; injection Hstep as <- _; split; simpl; assumption.
    + injection Hstep as <- _; split; simpl; assumption.
  - destruct (nth_error (awaitingRemote w) i); [|discriminate].
    destruct o as [|[t|]]; simpl in Hstep.
    + injection Hstep as <- _; split; simpl; assumption.
    + destruct (JsString.truthy t); simpl in Hstep;
        [destruct (Json.parse t); simpl in Hstep|];
        injection Hstep as <- _; split; simpl; assumption.
    + injection Hstep as <- _; split; simpl; assumption.
Qed.

Lemma reachable_recorder_ref w : reachable w -> recorder_ref_invariant w.
Proof.
  induction 1 as [|w e w' effs _ IH Hstep].
  - split; simpl; [discriminate | intros id H; discriminate].
  - exact (dispatch_recorder_ref _ _ _ _ IH Hstep).
Qed.

(** X1: on the page, whenever [isRecording] is true the guard of
    [stopRecording] holds: the ref names a recorder that was created,
    [stopRecording] asks exactly that recorder to stop, and [isRecording]
    is false afterwards. *)
Theorem stopRecording_when_recording w :
  reachable w ->
  isRecording (app w) = true ->
  exists id,
    mediaRecorderRef w = Some id
    /\ id < List.length (recorders w)
    /\ stopRecording w
       = (with_app (setIsRecording false) (recorder_stop id w), [RecorderStop id])
    /\ isRecording (app (fst (stopRecording w))) = false.
Proof.
  intros Hreach Hrec.
  destruct (reachable_recorder_ref w Hreach) as [Hsome Hlt].
  destruct (mediaRecorderRef w) as [id|] eqn:Hid; [|now destruct (Hsome Hrec)].
  exists id. unfold stopRecording. rewrite Hid, Hrec.
  repeat split. apply Hlt. reflexivity.
Qed.

Lemma world_after_reachable es : reachable (world_after es).
Proof.
  unfold world_after.
  destruct (run initialWorld es) as [[w effs]|] eqn:Hrun.
  - exact (run_reachable es _ _ _ reachable_init Hrun).
  - apply reachable_init.
Qed.

Lemma stopRecording_when_recording_witness :
  exists id,
    mediaRecorderRef recordingWorld = Some id
    /\ id < List.length (recorders recordingWorld)
    /\ stopRecording recordingWorld
       = (with_app (setIsRecording false) (recorder_stop id recordingWorld),
          [RecorderStop id])
    /\ isRecording (app (fst (stopRecording recordingWorld))) = false.
Proof.
  apply (stopRecording_when_recording recordingWorld).
  - apply world_after_reachable.
  - vm_compute. reflexivity.
Defined.

(** ** A recorder left behind *)

Lemma main_clickable s :
  clickable s MainButton = true ->
  Json.truthy (result s) = false /\ isProcessing s = false.
Proof.
  unfold clickable. rewrite rendered_spec. simpl. intros H. apply andb_prop in H as [Hres Hproc].
  split; now apply negb_true_iff.
Qed.

(** *** Single steps and how runs are put together *)

Lemma run_cons w e es w1 effs1 w2 effs2 :
  dispatch w e = Some (w1, effs1) ->
  run w1 es = Some (w2, effs2) ->
  run w (e :: es) = Some (w2, (effs1 ++ effs2)%list).
Proof. intros H1 H2. cbn [run]. rewrite H1, H2. reflexivity. Qed.

Lemma click_main_starts w :
  isRecording (app w) = false ->
  clickable (app w) MainButton = true ->
  dispatch w (Click MainButton)
  = Some (fst (startRecording w), [GetUserMedia]).
Proof. intros Hr Hc. cbn [dispatch onClick]. rewrite Hc, Hr. reflexivity. Qed.

Lemma click_main_stops w :
  isRecording (app w) = true ->
  clickable (app w) MainButton = true ->
  dispatch w (Click MainButton) = Some (stopRecording w).
Proof. intros Hr Hc. cbn [dispatch onClick]. rewrite Hc, Hr. reflexivity. Qed.

Lemma media_settles w o :
  awaitingMedia w <> 0 ->
  dispatch w (MediaSettled o) = Some (startRecording_resume o w).
Proof.
  intros H. cbn [dispatch]. destruct (awaitingMedia w); [congruence | reflexivity].
Qed.

(** After [startRecording] the microphone button is as clickable as
    before, and it still starts a recording. *)
Lemma startRecording_main_clickable w :
  clickable (app w) MainButton = true ->
  clickable (app (fst (startRecording w))) MainButton = true.
Proof.
  intros Hc. destruct (main_clickable _ Hc) as [_ Hproc].
  unfold clickable. rewrite rendered_spec. simpl. now rewrite Hproc.
Qed.

(** The world after a granted permission. *)
Lemma granted_world w :
  let w' := fst (startRecording_resume MediaGranted w) in
  recorders w' = (recorders w ++ [RecRecording])%list
  /\ mediaRecorderRef w' = Some (List.length (recorders w))
  /\ isRecording (app w') = true
  /\ isProcessing (app w') = isProcessing (app w)
  /\ result (app w') = result (app w)
  /\ chunksRef w' = chunksRef w
  /\ awaitingMedia w' = pred (awaitingMedia w)
  /\ snd (startRecording_resume MediaGranted w)
     = [NewMediaRecorder (List.length (recorders w));
        RecorderStart (List.length (recorders w))].
Proof. repeat split. Qed.

Lemma granted_step w :
  awaitingMedia w <> 0 ->
  dispatch w (MediaSettled MediaGranted)
  = Some (fst (startRecording_resume MediaGranted w),
          [NewMediaRecorder (List.length (recorders w));
           RecorderStart (List.length (recorders w))]).
Proof. intros H. rewrite (media_settles _ _ H). reflexivity. Qed.

Lemma run_nil w : run w [] = Some (w, []).
Proof. reflexivity. Qed.

(** X2: two calls of [startRecording] before the first permission arrives
    (the microphone button is not disabled while the page waits for
    [getUserMedia]) create two recorders, both recording; the ref holds the
    second, so the first is left behind. *)
Theorem double_start_orphans_recorder w :
  isRecording (app w) = false ->
  clickable (app w) MainButton = true ->
  exists w',
    run w double_start_events
    = Some (w', [ GetUserMedia; GetUserMedia;
                  NewMediaRecorder (List.length (recorders w));
                  RecorderStart (List.length (recorders w));
                  NewMediaRecorder (S (List.length (recorders w)));
                  RecorderStart (S (List.length (recorders w))) ])
    /\ orphaned (List.length (recorders w)) w'
    /\ mediaRecorderRef w' = Some (S (List.length (recorders w))).
Proof.
  intros Hr Hc.
  set (w1 := fst (startRecording w)).
  set (w2 := fst (startRecording w1)).
  set (w3 := fst (startRecording_resume MediaGranted w2)).
  set (w4 := fst (startRecording_resume MediaGranted w3)).
  assert (Hc1 : clickable (app w1) MainButton = true)
    by now apply startRecording_main_clickable.
  assert (Hrec3 : recorders w3 = (recorders w ++ [RecRecording])%list)
    by exact (proj1 (granted_world w2)).
  assert (Hrec4 : recorders w4 = (recorders w3 ++ [RecRecording])%list)
    by exact (proj1 (granted_world w3)).
  assert (Href4 : mediaRecorderRef w4 = Some (List.length (recorders w3)))
    by exact (proj1 (proj2 (granted_world w3))).
  assert (Hlen3 : List.length (recorders w3) = S (List.length (recorders w))).
  { rewrite Hrec3, length_app. cbn. lia. }
  exists w4. split; [|split].
  - unfold double_start_events.
    apply (run_cons _ _ _ w1 [GetUserMedia] w4); [now apply click_main_starts|].
    apply (run_cons _ _ _ w2 [GetUserMedia] w4);
      [apply click_main_starts; [exact Hr | exact Hc1]|].
    apply (run_cons _ _ _ w3
             [NewMediaRecorder (List.length (recorders w));
              RecorderStart (List.length (recorders w))] w4).
    { apply (granted_step w2). cbn. discriminate. }
    apply (run_cons _ _ _ w4
             [NewMediaRecorder (S (List.length (recorders w)));
              RecorderStart (S (List.length (recorders w)))] w4 []).
    { rewrite <- Hlen3. apply (granted_step w3). cbn. discriminate. }
    apply run_nil.
  - split.
    + rewrite Hrec4, Hrec3. apply nth_error_snoc_before, nth_error_snoc.
    + exists (List.length (recorders w3)). split; [exact Href4 | lia].
  - rewrite Href4. now rewrite Hlen3.
Qed.

Lemma double_start_orphans_recorder_witness :
  orphaned 0 doubleStartWorld /\ mediaRecorderRef doubleStartWorld = Some 1.
Proof.
  destruct (double_start_orphans_recorder initialWorld eq_refl eq_refl)
    as (w' & Hrun & Horphan & Href).
  assert (Hw : w' = doubleStartWorld).
  { unfold doubleStartWorld, world_after. rewrite Hrun. reflexivity. }
  rewrite <- Hw. split; [exact Horphan | exact Href].
Defined.

(** ** One recording, step by step *)

Lemma stop_world w id :
  mediaRecorderRef w = Some id ->
  isRecording (app w) = true ->
  nth_error (recorders w) id = Some RecRecording ->
  stopRecording w
  = (with_app (setIsRecording false)
       (set_recorders (replace_nth id RecStopping (recorders w)) w),
     [RecorderStop id]).
Proof.
  intros Href Hrec Hid. unfold stopRecording, recorder_stop.
  rewrite Href, Hrec, Hid. reflexivity.
Qed.

Lemma stopped_step w id data url :
  nth_error (recorders w) id = Some RecStopping ->
  dispatch w (RecorderStopped id data url)
  = Some (onstop id url
            (ondataavailable data
               (set_recorders (replace_nth id RecInactive (recorders w)) w))).
Proof. intros Hid. cbn [dispatch]. rewrite Hid. reflexivity. Qed.

(** With no chunk collected before, the blob that [onstop] makes of the
    recorder's data has the bytes of the data and the type [audio/webm]. *)
Lemma capture_of_data w id data url :
  chunksRef w = [] ->
  let r := onstop id url (ondataavailable data w) in
  snd r = [CreateObjectURL (webm (blob_bytes data)); StopTracks id]
  /\ audioBlob (app (fst r)) = Some (webm (blob_bytes data))
  /\ audioUrl (app (fst r)) = Some url
  /\ isRecording (app (fst r)) = isRecording (app w)
  /\ isProcessing (app (fst r)) = isProcessing (app w)
  /\ result (app (fst r)) = result (app w)
  /\ error (app (fst r)) = error (app w)
  /\ recorders (fst r) = recorders w
  /\ mediaRecorderRef (fst r) = mediaRecorderRef w
  /\ awaitingMedia (fst r) = awaitingMedia w.
Proof.
  intros Hchunks. unfold onstop, ondataavailable, blob_size, new_Blob, webm.
  destruct (blob_bytes data) as [|x xs] eqn:Hbytes; cbn; rewrite Hchunks; cbn;
    rewrite ?app_nil_r; repeat split; now rewrite Hbytes.
Qed.

(** X4: one recording from a page that is not recording: click, permission
    granted, click, the recorder's last event.  The page ends with a
    capture that holds exactly the bytes the recorder handed over, typed
    [audio/webm] whatever the type of the data, with the URL made for it,
    not recording, with no result and no error; the recorder is asked to
    stop once and its stream is released. *)
Theorem recording_session_captures_data w data url :
  isRecording (app w) = false ->
  clickable (app w) MainButton = true ->
  exists w',
    run w [ Click MainButton; MediaSettled MediaGranted; Click MainButton;
            (RecorderStopped (List.length (recorders w)) data url) ]
    = Some (w', [ GetUserMedia;
                  NewMediaRecorder (List.length (recorders w));
                  RecorderStart (List.length (recorders w));
                  RecorderStop (List.length (recorders w));
                  CreateObjectURL (webm (blob_bytes data));
                  StopTracks (List.length (recorders w)) ])
    /\ audioBlob (app w') = Some (webm (blob_bytes data))
    /\ audioUrl (app w') = Some url
    /\ isRecording (app w') = false
    /\ result (app w') = Json.Null
    /\ error (app w') = None
    /\ nth_error (recorders w') (List.length (recorders w)) = Some RecInactive.
Proof.
  intros Hr Hc. destruct (main_clickable _ Hc) as [_ Hproc].
  set (id := List.length (recorders w)).
  set (w1 := fst (startRecording w)).
  set (w2 := fst (startRecording_resume MediaGranted w1)).
  destruct (granted_world w1)
    as (Hrec2 & Href2 & Hisrec2 & Hproc2 & Hres2 & Hchunks2 & _).
  fold w2 in Hrec2, Href2, Hisrec2, Hproc2, Hres2, Hchunks2.
  change (recorders w1) with (recorders w) in Hrec2, Href2. fold id in Href2.
  assert (Hid2 : nth_error (recorders w2) id = Some RecRecording).
  { rewrite Hrec2. apply nth_error_snoc. }
  assert (Hc2 : clickable (app w2) MainButton = true).
  { unfold clickable. rewrite rendered_spec. cbn [disabled]. rewrite Hres2, Hproc2.
    cbn. now rewrite Hproc. }
  pose proof (stop_world w2 id Href2 Hisrec2 Hid2) as Hstop.
  set (w3 := with_app (setIsRecording false)
               (set_recorders (replace_nth id RecStopping (recorders w2)) w2))
    in Hstop.
  assert (Hid3 : nth_error (recorders w3) id = Some RecStopping).
  { cbn [w3 recorders with_app set_recorders].
    exact (nth_error_replace_nth_same _ _ _ _ Hid2). }
  set (w3' := set_recorders (replace_nth id RecInactive (recorders w3)) w3).
  assert (Hchunks3 : chunksRef w3' = []).
  { transitivity (chunksRef w2); [reflexivity | rewrite Hchunks2; reflexivity]. }
  destruct (capture_of_data w3' id data url Hchunks3)
    as (Heffs & Hblob & Hurl & Hisrec & _ & Hres & Herr & Hrecs & _).
  set (r := onstop id url (ondataavailable data w3')) in *.
  exists (fst r). repeat apply conj.
  - apply (run_cons _ _ _ w1 [GetUserMedia] (fst r)); [now apply click_main_starts|].
    apply (run_cons _ _ _ w2 [NewMediaRecorder id; RecorderStart id] (fst r)).
    { apply (granted_step w1). cbn. discriminate. }
    apply (run_cons _ _ _ w3 [RecorderStop id] (fst r)).
    { rewrite (click_main_stops w2 Hisrec2 Hc2). now rewrite Hstop. }
    apply (run_cons _ _ _ (fst r)
             [CreateObjectURL (webm (blob_bytes data)); StopTracks id] (fst r) []).
    { rewrite (stopped_step w3 id data url Hid3). fold w3'. fold r.
      rewrite <- Heffs. now destruct r. }
    apply run_nil.
  - exact Hblob.
  - exact Hurl.
  - rewrite Hisrec. reflexivity.
  - rewrite Hres. cbn [w3' w3 app with_app set_recorders result setIsRecording].
    rewrite Hres2. reflexivity.
  - rewrite Herr. reflexivity.
  - rewrite Hrecs. cbn [w3' recorders set_recorders].
    exact (nth_error_replace_nth_same _ _ _ _ Hid3).
Qed.

Lemma recording_session_captures_data_witness :
  exists w',
    run initialWorld
        [ Click MainButton; MediaSettled MediaGranted; Click MainButton;
          (RecorderStopped 0 (mkBlob [x01; xff] "audio/ogg") "blob:1") ]
    = Some (w', [ GetUserMedia; NewMediaRecorder 0; RecorderStart 0;
                  RecorderStop 0; CreateObjectURL (webm [x01; xff]);
                  StopTracks 0 ])
    /\ audioBlob (app w') = Some (webm [x01; xff])
    /\ audioUrl (app w') = Some "blob:1"
    /\ isRecording (app w') = false
    /\ result (app w') = Json.Null
    /\ error (app w') = None
    /\ nth_error (recorders w') 0 = Some RecInactive.
Proof.
  exact (recording_session_captures_data initialWorld
           (mkBlob [x01; xff] "audio/ogg") "blob:1" eq_refl eq_refl).
Defined.

(** X5: [startRecording] does not call off a recorder that is still
    stopping.  When its last event arrives after the new start has
    cleared the page, the old recording becomes the capture again, while
    the new start still waits for the microphone. *)
Theorem stopping_recorder_survives_restart w id data url :
  nth_error (recorders w) id = Some RecStopping ->
  exists w' effs,
    dispatch (fst (startRecording w)) (RecorderStopped id data url)
    = Some (w', effs)
    /\ audioBlob (app (fst (startRecording w))) = None
    /\ audioBlob (app w') = Some (webm (blob_bytes data))
    /\ audioUrl (app w') = Some url
    /\ awaitingMedia w' = S (awaitingMedia w).
Proof.
  intros Hid.
  set (w1 := fst (startRecording w)).
  assert (Hid1 : nth_error (recorders w1) id = Some RecStopping) by exact Hid.
  set (w1' := set_recorders (replace_nth id RecInactive (recorders w1)) w1).
  assert (Hchunks : chunksRef w1' = []) by reflexivity.
  destruct (capture_of_data w1' id data url Hchunks)
    as (_ & Hblob & Hurl & _ & _ & _ & _ & _ & _ & Hmedia).
  set (r := onstop id url (ondataavailable data w1')) in *.
  exists (fst r), (snd r). repeat apply conj.
  - rewrite (stopped_step w1 id data url Hid1). fold w1'. fold r. now destruct r.
  - reflexivity.
  - exact Hblob.
  - exact Hurl.
  - rewrite Hmedia. reflexivity.
Qed.

Lemma stopping_recorder_survives_restart_witness :
  exists w' effs,
    dispatch (fst (startRecording stoppingWorld))
             (RecorderStopped 0 (webm [x41]) "blob:1")
    = Some (w', effs)
    /\ audioBlob (app (fst (startRecording stoppingWorld))) = None
    /\ audioBlob (app w') = Some (webm [x41])
    /\ audioUrl (app w') = Some "blob:1"
    /\ awaitingMedia w' = S (awaitingMedia stoppingWorld).
Proof.
  apply (stopping_recorder_survives_restart stoppingWorld 0 (webm [x41]) "blob:1").
  vm_compute. reflexivity.
Defined.



(** ** What holds in every world the page can reach *)

Lemma stopRecording_app w :
  isProcessing (app (fst (stopRecording w))) = isProcessing (app w)
  /\ result (app (fst (stopRecording w))) = result (app w)
  /\ audioUrl (app (fst (stopRecording w))) = audioUrl (app w)
  /\ audioBlob (app (fst (stopRecording w))) = audioBlob (app w).
Proof.
  unfold stopRecording.
  destruct (mediaRecorderRef w) as [id|]; [|repeat split].
  destruct (isRecording (app w)); [|repeat split].
  destruct (recorder_stop_keeps id w) as (Happ & _).
  cbn [fst app with_app]. rewrite Happ. repeat split.
Qed.

Lemma dispatch_no_result_while_processing w e w' effs :
  no_result_while_processing w -> dispatch w e = Some (w', effs) ->
  no_result_while_processing w'.
Proof.
  unfold no_result_while_processing. intros Hinv Hstep.
  destruct e as [b|o|id data url|i h client_ok|i o]; simpl in Hstep.
  - destruct (clickable (app w) b) eqn:Hc; [|discriminate].
    handler_result Hstep. subst w' effs.
    destruct b; simpl.
    + destruct (isRecording (app w)).
      * destruct (stopRecording_app w) as (Hp & Hres & _). now rewrite Hp, Hres.
      * intros _. reflexivity.
    + intros _. reflexivity.
    + unfold clickable in Hc. rewrite rendered_spec in Hc. simpl in Hc.
      apply andb_prop in Hc as [Hrendered _].
      apply andb_prop in Hrendered as [Hrendered _].
      apply andb_prop in Hrendered as [Hres _].
      apply negb_true_iff in Hres.
      unfold translateAudio. destruct (audioBlob (app w)); simpl; intros _; exact Hres.
    + intros _. reflexivity.
  - destruct (awaitingMedia w); [discriminate|].
    handler_result Hstep. subst w' effs. destruct o; exact Hinv.
  - destruct (nth_error (recorders w) id) as [r|]; [|discriminate].
    destruct (stop_event_due r); [|discriminate].
    injection Hstep as <- _. unfold ondataavailable.
    destruct (0 <? blob_size data)%nat; exact Hinv.
  - destruct (nth_error (awaitingEncode w) i) as [blob|]; [|discriminate].
    unfold translateAudio_encoded in Hstep.
    destruct (blobToBase64 h blob) as [|base64Audio|]; [discriminate| |].
    + destruct client_ok; injection Hstep as <- _; simpl;
        [exact Hinv | discriminate].
    + injection Hstep as <- _; simpl. discriminate.
  - destruct (nth_error (awaitingRemote w) i); [|discriminate].
    pose proof (translateAudio_leave_not_processing
                  (translateAudio_responded o (app w))) as Hleave.
    destruct (translateAudio_leave (translateAudio_responded o (app w)))
      as [s effs'].
    injection Hstep as <- _. simpl in *. rewrite Hleave. discriminate.
Qed.

Lemma reachable_no_result_while_processing w :
  reachable w -> no_result_while_processing w.
Proof.
  induction 1 as [|w e w' effs _ IH Hstep].
  - intros H. discriminate.
  - exact (dispatch_no_result_while_processing _ _ _ _ IH Hstep).
Qed.

(** X7: on the page, while a submission is processing no result is held:
    the result panel is not shown, and the reset button is not there to
    click, so [reset] cannot run between a submission and its answer. *)
Theorem no_reset_while_processing w :
  reachable w ->
  isProcessing (app w) = true ->
  Json.truthy (result (app w)) = false
  /\ displayed (app w) = None
  /\ clickable (app w) ResetButton = false
  /\ dispatch w (Click ResetButton) = None.
Proof.
  intros Hreach Hproc.
  pose proof (reachable_no_result_while_processing w Hreach Hproc) as Hres.
  assert (Hc : clickable (app w) ResetButton = false).
  { unfold clickable. rewrite rendered_spec. cbn [disabled]. now rewrite Hres. }
  repeat apply conj.
  - exact Hres.
  - unfold displayed, shown, render_throws, result_area. rewrite Hres. cbn.
    destruct (result (app w)); reflexivity.
  - exact Hc.
  - cbn [dispatch]. now rewrite Hc.
Qed.

Lemma no_reset_while_processing_witness :
  displayed (app processingWorld) = None
  /\ dispatch processingWorld (Click ResetButton) = None.
Proof.
  assert (Hproc : isProcessing (app processingWorld) = true)
    by (vm_compute; reflexivity).
  destruct (no_reset_while_processing processingWorld processingWorld_reachable Hproc)
    as (_ & Hshown & _ & Hclick).
  split; [exact Hshown | exact Hclick].
Defined.

Lemma dispatch_url_with_blob w e w' effs :
  url_with_blob (app w) -> dispatch w e = Some (w', effs) ->
  url_with_blob (app w').
Proof.
  unfold url_with_blob. intros Hinv Hstep.
  destruct e as [b|o|id data url|i h client_ok|i o]; simpl in Hstep.
  - destruct (clickable (app w) b); [|discriminate].
    handler_result Hstep. subst w' effs.
    destruct b; simpl.
    + destruct (isRecording (app w)).
      * destruct (stopRecording_app w) as (_ & _ & Hurl & Hblob).
        now rewrite Hurl, Hblob.
      * split; reflexivity.
    + split; reflexivity.
    + unfold translateAudio. destruct (audioBlob (app w)) eqn:Hb; simpl;
        rewrite ?Hb; exact Hinv.
    + split; reflexivity.
  - destruct (awaitingMedia w); [discriminate|].
    handler_result Hstep. subst w' effs. destruct o; exact Hinv.
  - destruct (nth_error (recorders w) id) as [r|]; [|discriminate].
    destruct (stop_event_due r); [|discriminate].
    injection Hstep as <- _. simpl. split; discriminate.
  - destruct (nth_error (awaitingEncode w) i) as [blob|]; [|discriminate].
    destruct (translateAudio_encoded (blobToBase64 h blob) client_ok (app w))
      as [[[s effs'] sent]|] eqn:Henc; [|discriminate].
    apply translateAudio_encoded_keeps_capture in Henc as [Hblob Hurl].
    injection Hstep as <- _. destruct sent; simpl; now rewrite Hblob, Hurl.
  - destruct (nth_error (awaitingRemote w) i); [|discriminate].
    pose proof (translateAudio_responded_keeps_capture o (app w)) as [Hblob Hurl].
    destruct (translateAudio_leave (translateAudio_responded o (app w))) as [s effs'].
    injection Hstep as <- _. simpl in *. now rewrite Hblob, Hurl.
Qed.

(** X8: on the page the playback URL and the capture go together:
    [audioUrl] is null exactly when [audioBlob] is, so the audio player,
    which is rendered for a capture, always has its URL. *)
Theorem url_accompanies_capture w :
  reachable w ->
  (audioUrl (app w) = None <-> audioBlob (app w) = None).
Proof.
  induction 1 as [|w e w' effs _ IH Hstep].
  - split; reflexivity.
  - exact (dispatch_url_with_blob _ _ _ _ IH Hstep).
Qed.

Lemma url_accompanies_capture_witness :
  audioUrl (app processingWorld) = None <-> audioBlob (app processingWorld) = None.
Proof.
  exact (url_accompanies_capture processingWorld processingWorld_reachable).
Defined.

(** ** The ways a submission ends *)

(** X13: a submission with a capture takes the error path of
    [translateAudio] in exactly four cases: the blob cannot be read, the
    client cannot be built, the remote call throws, or the response has a
    non-empty text that [JSON.parse] rejects.  Nothing else (an empty
    text, a missing field, a value of another shape) counts as a
    failure. *)
Theorem submission_fails_exactly_when env s blob :
  audioBlob s = Some blob ->
  (error (fst (submit env s)) = Some processing_message
   <->
   FileReader.readable (sub_host env) = false
   \/ sub_client_ok env = false
   \/ sub_remote env = RemoteRejected
   \/ exists t, sub_remote env = RemoteResponse (Some t)
                /\ JsString.truthy t = true /\ Json.parse t = None).
Proof.
  intros Hblob.
  rewrite <- (translateAudio_failure_cases env s blob Hblob).
  split.
  - intros Herr. unfold submit, translation_error in *. rewrite Hblob in *.
    pose proof (blobToBase64_settled (sub_host env) blob) as Hsettled.
    destruct (blobToBase64 (sub_host env) blob) as [|base64Audio|];
      [congruence| |].
    + destruct (sub_client_ok env); cbn in *.
      * destruct (sub_remote env) as [|[t|]]; cbn in *.
        -- auto.
        -- destruct (JsString.truthy t); cbn in *;
             [destruct (Json.parse t); cbn in *|]; try discriminate; auto.
        -- discriminate.
      * auto.
    + cbn. auto.
  - intros Hin. exact (proj1 (translateAudio_failure_frame env s Hin)).
Qed.

Lemma submission_fails_exactly_when_witness :
  error (fst (submit garbled_submission capturedState)) = Some processing_message.
Proof.
  apply (submission_fails_exactly_when garbled_submission capturedState
           (webm [x01; xff; x10; x41]) eq_refl).
  right. right. right. exists "not json".
  repeat apply conj; vm_compute; reflexivity.
Defined.

(** ** [translateAudio] among the other handlers *)

(** X14: whenever it runs and whatever else is going on, [translateAudio]
    leaves the recording side of the page alone: the capture, its URL, the
    recording flag, the chunks, the recorders and the ref are the same
    after each of its steps; and the step in which its [catch] block runs
    ends with the error message set and [isProcessing] false. *)
Theorem translateAudio_steps_keep_capture w e w' effs :
  dispatch w e = Some (w', effs) ->
  is_translate_event e = true ->
  audioBlob (app w') = audioBlob (app w)
  /\ audioUrl (app w') = audioUrl (app w)
  /\ isRecording (app w') = isRecording (app w)
  /\ chunksRef w' = chunksRef w
  /\ recorders w' = recorders w
  /\ mediaRecorderRef w' = mediaRecorderRef w
  /\ (In translation_error effs ->
      error (app w') = Some processing_message /\ isProcessing (app w') = false).
Proof.
  intros Hstep He.
  assert (Hcatch : In translation_error effs ->
                   error (app w') = Some processing_message
                   /\ isProcessing (app w') = false).
  { intros Hin.
    destruct (catch_step_keeps_capture _ _ _ _ Hstep Hin) as (H1 & H2 & _).
    split; assumption. }
  destruct e as [[| | |]|o|id data url|i h client_ok|i o];
    try discriminate He; cbn [dispatch] in Hstep.
  - destruct (clickable (app w) TranslateButton); [|discriminate].
    handler_result Hstep. subst w' effs.
    cbn [onClick] in *. unfold translateAudio in *.
    destruct (audioBlob (app w)) eqn:Hb; cbn; rewrite ?Hb;
      repeat apply conj; try reflexivity; exact Hcatch.
  - destruct (nth_error (awaitingEncode w) i) as [blob|]; [|discriminate].
    unfold translateAudio_encoded in Hstep.
    destruct (blobToBase64 h blob) as [|base64Audio|]; [discriminate| |].
    + destruct client_ok; injection Hstep as <- <-;
        repeat apply conj; try reflexivity; exact Hcatch.
    + injection Hstep as <- <-. repeat apply conj; try reflexivity; exact Hcatch.
  - destruct (nth_error (awaitingRemote w) i); [|discriminate].
    pose proof (translateAudio_responded_keeps_capture o (app w)) as [Hblob Hurl].
    assert (Hrec : isRecording
                     (fst (translateAudio_leave (translateAudio_responded o (app w))))
                   = isRecording (app w)).
    { destruct o as [|[t|]]; cbn; try reflexivity.
      destruct (JsString.truthy t); [destruct (Json.parse t)|]; reflexivity. }
    destruct (translateAudio_leave (translateAudio_responded o (app w)))
      as [s effs'].
    injection Hstep as <- <-. cbn in Hblob, Hurl, Hrec.
    repeat apply conj; try reflexivity; try assumption.
Qed.

Lemma translateAudio_steps_keep_capture_witness :
  exists w',
    dispatch processingWorld (RemoteSettled 0 RemoteRejected)
    = Some (w', [translation_error])
    /\ audioBlob (app w') = audioBlob (app processingWorld)
    /\ error (app w') = Some processing_message.
Proof.
  assert (Hstep : dispatch processingWorld (RemoteSettled 0 RemoteRejected)
                  = Some (world_after (processing_events
                                         ++ [RemoteSettled 0 RemoteRejected]),
                          [translation_error]))
    by (vm_compute; reflexivity).
  destruct (translateAudio_steps_keep_capture _ _ _ _ Hstep eq_refl)
    as (Hblob & _ & _ & _ & _ & _ & Hcatch).
  eexists. split; [exact Hstep|]. split; [exact Hblob|].
  apply Hcatch. left. reflexivity.
Defined.

(** X15: every blob the page encodes was made by [onstop], so its type is
    [audio/webm]; and when such a blob has at least one byte and is read
    without error, the one request that is then sent carries a text that
    decodes to the bytes of the blob. *)
Theorem page_request_round_trip w i h blob :
  reachable w ->
  nth_error (awaitingEncode w) i = Some blob ->
  blob_type blob = "audio/webm"
  /\ (FileReader.readable h = true ->
      blob_bytes blob <> [] ->
      exists w' text,
        dispatch w (EncodeSettled i h true)
        = Some (w', [GenerateContent (translation_request (Some text))])
        /\ Base64.decode text = Some (blob_bytes blob)).
Proof.
  intros Hreach Hnth. split.
  - destruct (reachable_captures_are_webm w Hreach) as [_ Henc].
    apply nth_error_In in Hnth. exact (proj1 (Forall_forall _ _) Henc _ Hnth).
  - intros Hr Hne. exact (encoded_capture_round_trip w i h blob Hreach Hnth Hr Hne).
Qed.

Lemma encodingWorld_reachable : reachable encodingWorld.
Proof. apply world_after_reachable. Qed.

Lemma page_request_round_trip_witness :
  exists w' text,
    dispatch encodingWorld (EncodeSettled 0 reading_host true)
    = Some (w', [GenerateContent (translation_request (Some text))])
    /\ Base64.decode text = Some [x01; xff; x10; x41]%list.
Proof.
  assert (Hnth : nth_error (awaitingEncode encodingWorld) 0
                 = Some (webm [x01; xff; x10; x41])) by (vm_compute; reflexivity).
  apply (proj2 (page_request_round_trip encodingWorld 0 reading_host _
                  encodingWorld_reachable Hnth)).
  - reflexivity.
  - discriminate.
Defined.

(** X16: nothing on the way checks that the capture holds any audio.  A
    capture of no bytes is read and encoded like any other, and the
    request is sent with an empty text as its data (or with [undefined]
    where the host writes the bare [data:] for an empty blob). *)
Theorem empty_capture_is_sent w i h blob :
  reachable w ->
  nth_error (awaitingEncode w) i = Some blob ->
  blob_bytes blob = [] ->
  FileReader.readable h = true ->
  exists w',
    dispatch w (EncodeSettled i h true)
    = Some (w', [GenerateContent
                   (translation_request
                      (if FileReader.bare_empty_url h then None
                       else Some EmptyString))])
    /\ isProcessing (app w') = isProcessing (app w)
    /\ error (app w') = error (app w).
Proof.
  intros Hreach Hnth Hbytes Hr.
  destruct (reachable_captures_are_webm w Hreach) as [_ Henc].
  assert (Hty : blob_type blob = "audio/webm").
  { pose proof (nth_error_In _ _ Hnth) as Hin.
    exact (proj1 (Forall_forall _ _) Henc _ Hin). }
  assert (Hb64 : blobToBase64 h blob
                 = Resolved (if FileReader.bare_empty_url h then None
                             else Some EmptyString)).
  { rewrite (blobToBase64_readable _ _ Hr). unfold FileReader.data_url.
    rewrite Hbytes. destruct (FileReader.bare_empty_url h); [reflexivity|].
    unfold FileReader.media_type. rewrite Hty. reflexivity. }
  cbn [dispatch]. rewrite Hnth, Hb64. cbn.
  eexists. repeat apply conj; reflexivity.
Qed.

Lemma empty_capture_is_sent_witness :
  exists w',
    dispatch (world_after [ Click MainButton; MediaSettled MediaGranted;
                            Click MainButton;
                            (RecorderStopped 0 (webm []) "blob:1");
                            Click TranslateButton ])
             (EncodeSettled 0 reading_host true)
    = Some (w', [GenerateContent (translation_request (Some EmptyString))])
    /\ isProcessing (app w')
       = isProcessing
           (app (world_after [ Click MainButton; MediaSettled MediaGranted;
                               Click MainButton;
                               (RecorderStopped 0 (webm []) "blob:1");
                               Click TranslateButton ]))
    /\ error (app w')
       = error
           (app (world_after [ Click MainButton; MediaSettled MediaGranted;
                               Click MainButton;
                               (RecorderStopped 0 (webm []) "blob:1");
                               Click TranslateButton ])).
Proof.
  apply (empty_capture_is_sent _ 0 reading_host (webm [])
           (world_after_reachable _)).
  - vm_compute. reflexivity.
  - reflexivity.
  - reflexivity.
Defined.

(** X17: while a submission is processing, the microphone button and the
    translate button are disabled, but the small button beside the audio
    player is not.  A click on it runs [startRecording]: the capture that
    is being submitted is discarded and the microphone is asked for, while
    the submission stays outstanding and [isProcessing] stays true. *)
Theorem rerecord_during_processing w :
  isProcessing (app w) = true ->
  rendered (app w) TranslateButton = true ->
  dispatch w (Click MainButton) = None
  /\ dispatch w (Click TranslateButton) = None
  /\ dispatch w (Click RerecordButton)
     = Some (fst (startRecording w), [GetUserMedia])
  /\ audioBlob (app (fst (startRecording w))) = None
  /\ isProcessing (app (fst (startRecording w))) = true
  /\ outstanding (fst (startRecording w)) = outstanding w
  /\ awaitingMedia (fst (startRecording w)) = S (awaitingMedia w).
Proof.
  intros Hproc Hrendered.
  assert (Hparts : Json.truthy (result (app w)) = false
                   /\ isRecording (app w) = false
                   /\ exists blob, audioBlob (app w) = Some blob).
  { rewrite rendered_spec in Hrendered.
    apply andb_prop in Hrendered as [Hrest Hrec].
    apply andb_prop in Hrest as [Hres Hblob].
    apply negb_true_iff in Hres. apply negb_true_iff in Hrec.
    destruct (audioBlob (app w)) as [blob|]; [|discriminate]. eauto. }
  destruct Hparts as (Hres & Hrec & blob & Hblob).
  repeat apply conj.
  - cbn [dispatch]. unfold clickable. rewrite rendered_spec. cbn [disabled].
    now rewrite Hres, Hproc.
  - cbn [dispatch]. unfold clickable. cbn [disabled]. now rewrite Hrendered, Hproc.
  - cbn [dispatch]. unfold clickable. rewrite rendered_spec. cbn [disabled].
    now rewrite Hres, Hrec, Hblob.
  - reflexivity.
  - exact Hproc.
  - reflexivity.
  - reflexivity.
Qed.

Lemma rerecord_during_processing_witness :
  dispatch encodingWorld (Click MainButton) = None
  /\ dispatch encodingWorld (Click RerecordButton)
     = Some (fst (startRecording encodingWorld), [GetUserMedia])
  /\ audioBlob (app (fst (startRecording encodingWorld))) = None.
Proof.
  assert (Hproc : isProcessing (app encodingWorld) = true)
    by (vm_compute; reflexivity).
  assert (Hrendered : rendered (app encodingWorld) TranslateButton = true)
    by (vm_compute; reflexivity).
  destruct (rerecord_during_processing encodingWorld Hproc Hrendered)
    as (Hmain & _ & Hrerecord & Hblob & _).
  repeat apply conj; assumption.
Defined.

(** X18: a request goes out at one place only: at the end of an encoding
    that resolved, with the client built.  It is the fixed request of the
    page (model, media type [audio/webm], instruction, JSON answer with
    the two required fields) around the text the encoding resolved with,
    and it is the only effect of that step. *)
Theorem request_only_after_encoding w e w' effs req :
  dispatch w e = Some (w', effs) ->
  In (GenerateContent req) effs ->
  exists i h blob text,
    e = EncodeSettled i h true
    /\ nth_error (awaitingEncode w) i = Some blob
    /\ blobToBase64 h blob = Resolved text
    /\ req = translation_request text
    /\ effs = [GenerateContent req]
    /\ awaitingRemote w' = (awaitingRemote w ++ [req])%list.
Proof.
  intros Hstep Hin.
  destruct e as [b|o|id data url|i h client_ok|i o]; cbn [dispatch] in Hstep.
  - exfalso. destruct (clickable (app w) b); [|discriminate].
    handler_result Hstep. subst w' effs.
    destruct b; cbn [onClick snd] in Hin.
    + destruct (isRecording (app w)) eqn:Hrec.
      * unfold stopRecording in Hin. rewrite Hrec in Hin.
        destruct (mediaRecorderRef w); cbn in Hin;
          [destruct Hin as [H|[]]; discriminate | exact Hin].
      * destruct Hin as [H|[]]; discriminate.
    + destruct Hin as [H|[]]; discriminate.
    + unfold translateAudio in Hin.
      destruct (audioBlob (app w)); cbn in Hin;
        [destruct Hin as [H|[]]; discriminate | exact Hin].
    + exact Hin.
  - exfalso. destruct (awaitingMedia w); [discriminate|].
    handler_result Hstep. subst w' effs.
    destruct o; cbn in Hin;
      repeat (destruct Hin as [Hin|Hin]; [discriminate|]); exact Hin.
  - exfalso. destruct (nth_error (recorders w) id) as [r|]; [|discriminate].
    destruct (stop_event_due r); [|discriminate].
    injection Hstep as _ <-. cbn in Hin. destruct Hin as [H|[H|[]]]; discriminate.
  - destruct (nth_error (awaitingEncode w) i) as [blob|] eqn:Hnth; [|discriminate].
    unfold translateAudio_encoded in Hstep.
    destruct (blobToBase64 h blob) as [|base64Audio|] eqn:Hb64; [discriminate| |].
    + destruct client_ok; injection Hstep as <- <-.
      * destruct Hin as [H|[]]. injection H as <-.
        exists i, h, blob, base64Audio. repeat apply conj; reflexivity || assumption.
      * exfalso. destruct Hin as [H|[]]; discriminate.
    + exfalso. injection Hstep as <- <-. destruct Hin as [H|[]]; discriminate.
  - exfalso. destruct (nth_error (awaitingRemote w) i); [|discriminate].
    destruct (translateAudio_leave (translateAudio_responded o (app w)))
      as [s effs'] eqn:Hleave.
    injection Hstep as <- <-.
    destruct (translateAudio_responded o (app w)); cbn in Hleave;
      injection Hleave as _ <-; cbn in Hin;
      repeat (destruct Hin as [Hin|Hin]; [discriminate|]); exact Hin.
Qed.

Lemma request_only_after_encoding_witness :
  exists i h blob text,
    EncodeSettled 0 reading_host true = EncodeSettled i h true
    /\ nth_error (awaitingEncode encodingWorld) i = Some blob
    /\ blobToBase64 h blob = Resolved text
    /\ translation_request (Some "Af8QQQ==") = translation_request text
    /\ [GenerateContent (translation_request (Some "Af8QQQ=="))]
       = [GenerateContent (translation_request (Some "Af8QQQ=="))]
    /\ awaitingRemote processingWorld
       = (awaitingRemote encodingWorld
            ++ [translation_request (Some "Af8QQQ==")])%list.
Proof.
  assert (Hstep : dispatch encodingWorld (EncodeSettled 0 reading_host true)
                  = Some (processingWorld,
                          [GenerateContent (translation_request (Some "Af8QQQ=="))]))
    by (vm_compute; reflexivity).
  apply (request_only_after_encoding _ _ _ _ _ Hstep). left. reflexivity.
Defined.

(* ================================================================= *)
(** * The submission on the page, with whatever happens meanwhile *)

(** ** What single steps write *)


(** An event that starts no recording and ends none leaves the capture,
    its URL and the recording flag as they were. *)
Lemma quiet_step_frame w e w' effs :
  dispatch w e = Some (w', effs) ->
  leaves_recording_alone e = true ->
  audioBlob (app w') = audioBlob (app w)
  /\ audioUrl (app w') = audioUrl (app w)
  /\ isRecording (app w') = isRecording (app w).
Proof.
  intros Hstep He.
  destruct e as [[| | |]|o|id data url|i h client_ok|i o];
    try discriminate He; cbn [dispatch] in Hstep.
  - destruct (clickable (app w) TranslateButton); [|discriminate].
    handler_result Hstep. subst w' effs.
    cbn [onClick]. unfold translateAudio.
    destruct (audioBlob (app w)) eqn:Hb; cbn; rewrite ?Hb; repeat apply conj;
      reflexivity.
  - destruct (awaitingMedia w); [discriminate|].
    handler_result Hstep. subst w' effs.
    destruct o; try discriminate He; repeat apply conj; reflexivity.
  - destruct (nth_error (awaitingEncode w) i) as [blob|]; [|discriminate].
    unfold translateAudio_encoded in Hstep.
    destruct (blobToBase64 h blob) as [|base64Audio|]; [discriminate| |].
    + destruct client_ok; injection Hstep as <- <-; repeat apply conj; reflexivity.
    + injection Hstep as <- <-. repeat apply conj; reflexivity.
  - destruct (nth_error (awaitingRemote w) i); [|discriminate].
    destruct o as [|[t|]]; cbn in Hstep.
    + injection Hstep as <- <-. repeat apply conj; reflexivity.
    + destruct (JsString.truthy t); cbn in Hstep;
        [destruct (Json.parse t); cbn in Hstep|];
        injection Hstep as <- <-; repeat apply conj; reflexivity.
    + injection Hstep as <- <-. repeat apply conj; reflexivity.
Qed.


(** The click on the translate button: what it needs and what it does. *)
Lemma click_translate w w0 effs0 :
  dispatch w (Click TranslateButton) = Some (w0, effs0) ->
  (exists blob, audioBlob (app w) = Some blob
                /\ w0 = fst (translateAudio w)
                /\ effs0 = [ReadAsDataURL blob])
  /\ Json.truthy (result (app w)) = false
  /\ isRecording (app w) = false
  /\ isProcessing (app w) = false
  /\ audioBlob (app w0) = audioBlob (app w)
  /\ audioUrl (app w0) = audioUrl (app w)
  /\ isRecording (app w0) = isRecording (app w)
  /\ result (app w0) = result (app w)
  /\ error (app w0) = None
  /\ isProcessing (app w0) = true.
Proof.
  cbn [dispatch]. intros Hstep.
  destruct (clickable (app w) TranslateButton) eqn:Hc; [|discriminate].
  unfold clickable in Hc. rewrite rendered_spec in Hc. cbn [disabled] in Hc.
  apply andb_prop in Hc as [Hrendered Hproc].
  apply andb_prop in Hrendered as [Hrest Hrec].
  apply andb_prop in Hrest as [Hres Hblob].
  apply negb_true_iff in Hres. apply negb_true_iff in Hrec.
  apply negb_true_iff in Hproc.
  handler_result Hstep. subst w0 effs0. cbn [onClick]. unfold translateAudio.
  destruct (audioBlob (app w)) as [blob|] eqn:Hb; [|discriminate].
  cbn. rewrite ?Hb. repeat apply conj; try reflexivity; try assumption.
  exists blob. repeat apply conj; reflexivity.
Qed.

(** ** Not the message of a failure while processing *)

Lemma messages_differ : microphone_message <> processing_message.
Proof. discriminate. Qed.

Lemma dispatch_no_failure_message w e w' effs :
  no_failure_message_while_processing w ->
  dispatch w e = Some (w', effs) ->
  no_failure_message_while_processing w'.
Proof.
  unfold no_failure_message_while_processing. intros Hinv Hstep.
  destruct e as [b|o|id data url|i h client_ok|i o]; cbn [dispatch] in Hstep.
  - destruct (clickable (app w) b); [|discriminate].
    handler_result Hstep. subst w' effs.
    destruct b; cbn [onClick].
    + destruct (isRecording (app w)) eqn:Hrec.
      * unfold stopRecording. rewrite Hrec.
        destruct (mediaRecorderRef w) as [id|]; [|exact Hinv].
        destruct (recorder_stop_keeps id w) as (Happ & _).
        cbn [fst app with_app setIsRecording isProcessing error].
        rewrite Happ. exact Hinv.
      * intros _. discriminate.
    + intros _. discriminate.
    + unfold translateAudio. destruct (audioBlob (app w)); cbn;
        [intros _; discriminate | exact Hinv].
    + intros _. discriminate.
  - destruct (awaitingMedia w); [discriminate|].
    handler_result Hstep. subst w' effs.
    destruct o; try exact Hinv;
      (intros _; change (Some microphone_message <> Some processing_message);
       intros H; apply messages_differ; congruence).
  - destruct (nth_error (recorders w) id) as [r|]; [|discriminate].
    destruct (stop_event_due r); [|discriminate].
    injection Hstep as <- _. unfold ondataavailable.
    destruct (0 <? blob_size data)%nat; exact Hinv.
  - destruct (nth_error (awaitingEncode w) i) as [blob|]; [|discriminate].
    unfold translateAudio_encoded in Hstep.
    destruct (blobToBase64 h blob) as [|base64Audio|]; [discriminate| |].
    + destruct client_ok; injection Hstep as <- _; cbn;
        [exact Hinv | discriminate].
    + injection Hstep as <- _. cbn. discriminate.
  - destruct (nth_error (awaitingRemote w) i); [|discriminate].
    pose proof (translateAudio_leave_not_processing
                  (translateAudio_responded o (app w))) as Hleave.
    destruct (translateAudio_leave (translateAudio_responded o (app w)))
      as [s effs'].
    injection Hstep as <- _. cbn in *. rewrite Hleave. discriminate.
Qed.

Lemma reachable_no_failure_message w :
  reachable w -> no_failure_message_while_processing w.
Proof.
  induction 1 as [|w e w' effs _ IH Hstep].
  - intros H. discriminate.
  - exact (dispatch_no_failure_message _ _ _ _ IH Hstep).
Qed.

(** The end of a remote call needs a call that is outstanding. *)
Lemma remote_step_processing w i o w' effs :
  reachable w ->
  dispatch w (RemoteSettled i o) = Some (w', effs) ->
  isProcessing (app w) = true.
Proof.
  intros Hreach Hstep. cbn [dispatch] in Hstep.
  destruct (nth_error (awaitingRemote w) i) as [req|] eqn:Hnth; [|discriminate].
  pose proof (nth_error_some_lt _ _ _ Hnth) as Hlt.
  pose proof (reachable_invariant w Hreach) as Hinv.
  unfold processing_invariant, outstanding in Hinv.
  destruct (isProcessing (app w)); [reflexivity | lia].
Qed.

(** The step of an answer whose text parses. *)
Lemma parsed_response_step w i t v w' effs :
  dispatch w (RemoteSettled i (RemoteResponse (Some t))) = Some (w', effs) ->
  Json.parse t = Some v ->
  app w' = setIsProcessing false (setResult v (app w)) /\ effs = [].
Proof.
  intros Hstep Hparse. cbn [dispatch] in Hstep.
  destruct (nth_error (awaitingRemote w) i); [|discriminate].
  cbn [translateAudio_responded] in Hstep.
  rewrite (parsed_text_truthy _ _ Hparse), Hparse in Hstep.
  cbn in Hstep. injection Hstep as <- <-. split; reflexivity.
Qed.

(** ** C1 *)

(** C1 (as amended): a response whose text is valid JSON but lacks
    [transcription] or [translation] does not take the page to Failed.  In
    the step that handles it, whatever else has happened meanwhile,
    [translateAudio] stores the parsed value as [result], its [catch]
    block does not run (nothing is written to the console), [error] is
    left as it was, which is not the message of a failed submission, and
    [isProcessing] is false again. *)
Theorem partial_response_is_stored w i t v w' effs :
  reachable w ->
  dispatch w (RemoteSettled i (RemoteResponse (Some t))) = Some (w', effs) ->
  Json.parse t = Some v ->
  missing_required_field v = true ->
  result (app w') = v
  /\ isProcessing (app w') = false
  /\ error (app w') = error (app w)
  /\ error (app w') <> Some processing_message
  /\ effs = [].
Proof.
  intros Hreach Hstep Hparse _.
  pose proof (remote_step_processing _ _ _ _ _ Hreach Hstep) as Hproc.
  pose proof (reachable_no_failure_message w Hreach Hproc) as Herr.
  destruct (parsed_response_step _ _ _ _ _ _ Hstep Hparse) as [Happ ->].
  rewrite Happ. repeat apply conj; try reflexivity. exact Herr.
Qed.

Lemma partial_response_is_stored_witness :
  exists w',
    dispatch processingWorld (RemoteSettled 0 (RemoteResponse (Some partial_text)))
    = Some (w', [])
    /\ result (app w') = partial_value
    /\ error (app w') <> Some processing_message.
Proof.
  assert (Hstep : dispatch processingWorld
                    (RemoteSettled 0 (RemoteResponse (Some partial_text)))
                  = Some (world_after (session (RemoteResponse (Some partial_text))),
                          [])) by (vm_compute; reflexivity).
  assert (Hparse : Json.parse partial_text = Some partial_value)
    by (vm_compute; reflexivity).
  assert (Hmissing : missing_required_field partial_value = true)
    by (vm_compute; reflexivity).
  destruct (partial_response_is_stored _ _ _ _ _ _ processingWorld_reachable
              Hstep Hparse Hmissing) as (Hres & _ & _ & Herr & _).
  eexists. split; [exact Hstep|]. split; [exact Hres | exact Herr].
Defined.

(** ** C6 *)




(** ** C10 *)

(** The step of an answer with an empty or absent text: only
    [isProcessing] is written. *)
Lemma empty_response_step w i jsonText w' effs :
  dispatch w (RemoteSettled i (RemoteResponse jsonText)) = Some (w', effs) ->
  jsonText_truthy jsonText = false ->
  app w' = setIsProcessing false (app w) /\ effs = [].
Proof.
  intros Hstep Hfalsy. cbn [dispatch] in Hstep.
  destruct (nth_error (awaitingRemote w) i); [|discriminate].
  assert (Hsame : translateAudio_responded (RemoteResponse jsonText) (app w)
                  = Normal (app w)).
  { destruct jsonText as [t|]; cbn in *; [rewrite Hfalsy|]; reflexivity. }
  rewrite Hsame in Hstep. cbn in Hstep. injection Hstep as <- <-.
  split; reflexivity.
Qed.

(** A submission from a page with no call outstanding, with nothing
    between its three steps. *)
Lemma run_submission w h o w' effs :
  awaitingEncode w = [] -> awaitingRemote w = [] ->
  run w [ Click TranslateButton; EncodeSettled 0 h true; RemoteSettled 0 o ]
  = Some (w', effs) ->
  exists blob base64Audio,
    audioBlob (app w) = Some blob
    /\ blobToBase64 h blob = Resolved base64Audio
    /\ (app w', effs)
       = (let '(s, effs') :=
            translateAudio_leave
              (translateAudio_responded o
                 (setError None (setIsProcessing true (app w)))) in
          (s, ReadAsDataURL blob
                :: GenerateContent (translation_request base64Audio) :: effs')).
Proof.
  intros Henc Hrem Hrun.
  destruct w as [s ref chunks recs media enc rem]. cbn in Henc, Hrem. subst enc rem.
  cbn [run] in Hrun.
  destruct (dispatch _ (Click TranslateButton)) as [[w0 effs0]|] eqn:Hclick;
    [|discriminate].
  destruct (click_translate _ _ _ Hclick) as ((blob & Hblob & Hw0 & Heffs0) & _).
  cbn [app] in Hblob. unfold translateAudio in Hw0. cbn [app] in Hw0.
  rewrite Hblob in Hw0. cbn in Hw0. subst w0 effs0.
  cbn -[blobToBase64 translateAudio_leave translateAudio_responded] in Hrun.
  destruct (blobToBase64 h blob) as [|base64Audio|] eqn:Hb64.
  - discriminate.
  - cbn -[translateAudio_leave translateAudio_responded] in Hrun.
    destruct (translateAudio_leave _) as [s' effs'] eqn:Hleave.
    cbn in Hrun. injection Hrun as <- <-.
    exists blob, base64Audio. cbn [app].
    repeat apply conj; try reflexivity; try assumption.
    cbn. rewrite ?app_nil_r. reflexivity.
  - cbn in Hrun. discriminate.
Qed.

(** C10 as stated fails, in two ways.  While the answer is awaited the
    re-record button can be clicked and the microphone refused: the answer
    with an empty text then leaves the page with no capture and with the
    message for the microphone in [error].  And with no click at all while
    the submission is processing: a request for the microphone that was
    still pending is refused, and the answer with an empty text leaves
    that message in [error]. *)
Lemma empty_response_not_always_silent :
  (audioBlob (app (world_after recording_events)) = Some (webm [x01; xff; x10; x41])
   /\ audioBlob (app (world_after rerecord_silent_events)) = None
   /\ error (app (world_after rerecord_silent_events)) = Some microphone_message
   /\ result (app (world_after rerecord_silent_events)) = Json.Null
   /\ isProcessing (app (world_after rerecord_silent_events)) = false
   /\ option_map snd (run initialWorld rerecord_silent_events)
      = Some [ GetUserMedia; NewMediaRecorder 0; RecorderStart 0; RecorderStop 0;
               CreateObjectURL (webm [x01; xff; x10; x41]); StopTracks 0;
               ReadAsDataURL (webm [x01; xff; x10; x41]);
               GenerateContent (translation_request (Some "Af8QQQ=="));
               GetUserMedia; ConsoleError "Error accessing microphone:" ])
  /\ (audioBlob (app (world_after pending_grant_events))
      = Some (webm [x01; xff; x10; x41])
      /\ clickable (app (world_after pending_grant_events)) TranslateButton = true
      /\ option_map snd (run initialWorld late_denial_silent_events)
         = Some [ GetUserMedia; GetUserMedia; NewMediaRecorder 0; RecorderStart 0;
                  RecorderStop 0; CreateObjectURL (webm [x01; xff; x10; x41]);
                  StopTracks 0; ReadAsDataURL (webm [x01; xff; x10; x41]);
                  GenerateContent (translation_request (Some "Af8QQQ=="));
                  ConsoleError "Error accessing microphone:" ]
      /\ error (app (world_after late_denial_silent_events))
         = Some microphone_message
      /\ result (app (world_after late_denial_silent_events)) = Json.Null
      /\ isProcessing (app (world_after late_denial_silent_events)) = false
      /\ audioBlob (app (world_after late_denial_silent_events))
         = Some (webm [x01; xff; x10; x41])).
Proof. vm_compute. repeat split. Qed.

(** C10 (as amended): when the remote call returns and its text is empty
    or absent, the step that handles the answer writes [isProcessing]
    (false) and nothing else: no result, no error message, nothing to the
    console, whatever else has happened meanwhile.  When nothing happens
    between the click that submitted, the end of the encoding and the
    answer, [result] is what it was (null stays null), [error] is null as
    the submission left it, and the capture is retained. *)
Theorem empty_response_is_silent :
  (forall w i jsonText w' effs,
      dispatch w (RemoteSettled i (RemoteResponse jsonText)) = Some (w', effs) ->
      jsonText_truthy jsonText = false ->
      app w' = setIsProcessing false (app w) /\ effs = [])
  /\ (forall w h jsonText w' effs,
      reachable w ->
      run w [ Click TranslateButton; EncodeSettled 0 h true;
              RemoteSettled 0 (RemoteResponse jsonText) ]
      = Some (w', effs) ->
      jsonText_truthy jsonText = false ->
      result (app w') = result (app w)
      /\ (result (app w) = Json.Null -> result (app w') = Json.Null)
      /\ error (app w') = None
      /\ isProcessing (app w') = false
      /\ audioBlob (app w') = audioBlob (app w)
      /\ audioBlob (app w) <> None
      /\ audioUrl (app w') = audioUrl (app w)
      /\ ~ In translation_error effs).
Proof.
  split; [exact empty_response_step|].
  intros w h jsonText w' effs Hreach Hrun Hfalsy.
  assert (Hnone : awaitingEncode w = [] /\ awaitingRemote w = []).
  { pose proof (reachable_invariant w Hreach) as Hinv.
    unfold processing_invariant, outstanding in Hinv.
    cbn [run] in Hrun.
    destruct (dispatch w (Click TranslateButton)) as [[w0 effs0]|] eqn:Hclick;
      [|discriminate].
    destruct (click_translate _ _ _ Hclick) as (_ & _ & _ & Hproc & _).
    rewrite Hproc in Hinv.
    destruct (awaitingEncode w); [|cbn in Hinv; lia].
    destruct (awaitingRemote w); [|cbn in Hinv; lia]. split; reflexivity. }
  destruct Hnone as [Henc Hrem].
  destruct (run_submission _ _ _ _ _ Henc Hrem Hrun)
    as (blob & base64Audio & Hblob & _ & Hend).
  assert (Hsame : translateAudio_responded (RemoteResponse jsonText)
                    (setError None (setIsProcessing true (app w)))
                  = Normal (setError None (setIsProcessing true (app w)))).
  { destruct jsonText as [t|]; cbn in *; [rewrite Hfalsy|]; reflexivity. }
  rewrite Hsame in Hend. cbn in Hend. injection Hend as Happ Heffs.
  rewrite Happ, Heffs, Hblob. cbn.
  repeat apply conj; try reflexivity.
  - intros H. exact H.
  - exact Hblob.
  - discriminate.
  - unfold translation_error. intros [H|[H|[]]]; discriminate.
Qed.

Lemma empty_response_is_silent_witness :
  result (app (world_after (session (RemoteResponse (Some EmptyString))))) = Json.Null
  /\ error (app (world_after (session (RemoteResponse (Some EmptyString))))) = None
  /\ audioBlob (app (world_after (session (RemoteResponse (Some EmptyString)))))
     = audioBlob (app (world_after recording_events)).
Proof.
  assert (Hrun : run (world_after recording_events)
                   [ Click TranslateButton; EncodeSettled 0 reading_host true;
                     RemoteSettled 0 (RemoteResponse (Some EmptyString)) ]
                 = Some (world_after (session (RemoteResponse (Some EmptyString))),
                         [ ReadAsDataURL (webm [x01; xff; x10; x41]);
                           GenerateContent (translation_request (Some "Af8QQQ==")) ]))
    by (vm_compute; reflexivity).
  destruct (proj2 empty_response_is_silent _ _ _ _ _
              (world_after_reachable recording_events) Hrun eq_refl)
    as (_ & Hnull & Herr & _ & Hblob & _).
  repeat apply conj; [apply Hnull; vm_compute; reflexivity | exact Herr | exact Hblob].
Defined.

(* ================================================================= *)
(** * Further properties, with the render that throws and the recorder
      that stops by itself *)

(** ** A recorder left behind *)

Lemma orphaned_left_behind i w : orphaned i w -> left_behind i w.
Proof.
  intros [Hi Hj]. split; [exact (nth_error_some_lt _ _ _ Hi) | exact Hj].
Qed.

(** The page calls [stop()] on the recorder of the ref only, and the ref
    only moves on. *)
Lemma dispatch_left_behind i w e w' effs :
  left_behind i w -> dispatch w e = Some (w', effs) ->
  left_behind i w' /\ ~ In (RecorderStop i) effs.
Proof.
  intros [Hlen (j & Hj & Hlt)] Hstep.
  destruct e as [b|o|id data url|k h client_ok|k o]; cbn [dispatch] in Hstep.
  - destruct (clickable (app w) b); [|discriminate].
    handler_result Hstep. subst w' effs.
    destruct b; cbn [onClick].
    + destruct (isRecording (app w)) eqn:Hr.
      * unfold stopRecording. rewrite Hj, Hr. cbn [fst snd].
        destruct (recorder_stop_keeps j w) as (_ & Hsame & _).
        repeat apply conj.
        -- cbn [recorders with_app]. now rewrite recorder_stop_length.
        -- exists j. split; [|exact Hlt]. cbn [mediaRecorderRef with_app].
           now rewrite Hsame.
        -- intros [H|[]]. injection H as H. lia.
      * repeat apply conj; [exact Hlen | exists j; auto |].
        intros [H|[]]; discriminate.
    + repeat apply conj; [exact Hlen | exists j; auto |].
      intros [H|[]]; discriminate.
    + unfold translateAudio. destruct (audioBlob (app w)); cbn [fst snd];
        (repeat apply conj; [exact Hlen | exists j; auto |]);
        [intros [H|[]]; discriminate | intros []].
    + repeat apply conj; [exact Hlen | exists j; auto | intros []].
  - destruct (awaitingMedia w); [discriminate|].
    handler_result Hstep. subst w' effs.
    destruct o; cbn [startRecording_resume startRecording_catch fst snd].
    + repeat apply conj; [exact Hlen | exists j; auto |].
      intros [H|[]]; discriminate.
    + repeat apply conj; [exact Hlen | exists j; auto |].
      intros [H|[]]; discriminate.
    + repeat apply conj.
      * cbn. rewrite length_app. cbn. lia.
      * exists (List.length (recorders w)). split; [reflexivity | exact Hlen].
      * intros [H|[H|[]]]; discriminate.
    + repeat apply conj.
      * cbn. rewrite length_app. cbn. lia.
      * exists (List.length (recorders w)). split; [reflexivity | exact Hlen].
      * intros [H|[H|[]]]; discriminate.
  - destruct (nth_error (recorders w) id) as [r|]; [|discriminate].
    destruct (stop_event_due r); [|discriminate].
    injection Hstep as <- <-. unfold ondataavailable.
    repeat apply conj.
    + destruct (0 <? blob_size data)%nat; cbn; now rewrite length_replace_nth.
    + exists j. destruct (0 <? blob_size data)%nat; cbn; auto.
    + intros [H|[H|[]]]; discriminate.
  - destruct (nth_error (awaitingEncode w) k) as [blob|]; [|discriminate].
    unfold translateAudio_encoded in Hstep.
    destruct (blobToBase64 h blob) as [|base64Audio|]; [discriminate| |].
    + destruct client_ok; injection Hstep as <- <-;
        (repeat apply conj; [exact Hlen | exists j; auto |]);
        intros [H|[]]; discriminate.
    + injection Hstep as <- <-.
      repeat apply conj; [exact Hlen | exists j; auto |].
      intros [H|[]]; discriminate.
  - destruct (nth_error (awaitingRemote w) k); [|discriminate].
    destruct (translateAudio_leave (translateAudio_responded o (app w)))
      as [s effs'] eqn:Hleave.
    injection Hstep as <- <-.
    assert (Heffs : effs' = [] \/ effs' = [translation_error]).
    { destruct (translateAudio_responded o (app w)); cbn in Hleave;
        injection Hleave as _ <-; auto. }
    repeat apply conj; [exact Hlen | exists j; auto |].
    destruct Heffs as [-> | ->]; intros H;
      repeat (destruct H as [H|H]; [discriminate|]); exact H.
Qed.

(** As long as its own stop event does not come, a recorder left behind
    keeps recording and its tracks are not stopped. *)
Lemma dispatch_orphaned i w e w' effs :
  orphaned i w -> is_stop_event_of i e = false ->
  dispatch w e = Some (w', effs) ->
  orphaned i w' /\ ~ In (StopTracks i) effs.
Proof.
  intros Horphan He Hstep.
  destruct (dispatch_left_behind _ _ _ _ _ (orphaned_left_behind _ _ Horphan) Hstep)
    as [[_ Href] _].
  destruct Horphan as [Hi (j & Hj & Hlt)].
  destruct e as [b|o|id data url|k h client_ok|k o]; cbn [dispatch] in Hstep.
  - destruct (clickable (app w) b); [|discriminate].
    handler_result Hstep. subst w' effs.
    destruct b; cbn [onClick] in *.
    + destruct (isRecording (app w)) eqn:Hr.
      * unfold stopRecording in *. rewrite Hj, Hr in *. cbn [fst snd] in *.
        repeat apply conj; [|exact Href|].
        -- cbn [recorders with_app]. unfold recorder_stop.
           destruct (nth_error (recorders w) j) as [[| |]|]; cbn; try exact Hi.
           rewrite nth_error_replace_nth_other by lia. exact Hi.
        -- intros [H|[]]. discriminate.
      * repeat apply conj; [exact Hi | exact Href |]. intros [H|[]]; discriminate.
    + repeat apply conj; [exact Hi | exact Href |]. intros [H|[]]; discriminate.
    + unfold translateAudio in *. destruct (audioBlob (app w)); cbn [fst snd] in *;
        (repeat apply conj; [exact Hi | exact Href |]);
        [intros [H|[]]; discriminate | intros []].
    + repeat apply conj; [exact Hi | exact Href | intros []].
  - destruct (awaitingMedia w); [discriminate|].
    handler_result Hstep. subst w' effs.
    destruct o; cbn [startRecording_resume startRecording_catch fst snd] in *;
      (repeat apply conj; [| exact Href |]);
      try exact Hi;
      try (cbn; apply nth_error_snoc_before; exact Hi);
      intros H; repeat (destruct H as [H|H]; [discriminate|]); exact H.
  - cbn in He. apply Nat.eqb_neq in He.
    destruct (nth_error (recorders w) id) as [r|]; [|discriminate].
    destruct (stop_event_due r); [|discriminate].
    injection Hstep as <- <-. unfold ondataavailable in *.
    repeat apply conj; [| exact Href |].
    + destruct (0 <? blob_size data)%nat; cbn;
        rewrite nth_error_replace_nth_other by congruence; exact Hi.
    + intros [H|[H|[]]]; [discriminate|]. injection H as H. congruence.
  - destruct (nth_error (awaitingEncode w) k) as [blob|]; [|discriminate].
    unfold translateAudio_encoded in Hstep.
    destruct (blobToBase64 h blob) as [|base64Audio|]; [discriminate| |].
    + destruct client_ok; injection Hstep as <- <-;
        (repeat apply conj; [exact Hi | exists j; auto |]);
        intros [H|[]]; discriminate.
    + injection Hstep as <- <-.
      repeat apply conj; [exact Hi | exists j; auto |].
      intros [H|[]]; discriminate.
  - destruct (nth_error (awaitingRemote w) k); [|discriminate].
    destruct (translateAudio_leave (translateAudio_responded o (app w)))
      as [s effs'] eqn:Hleave.
    injection Hstep as <- <-.
    assert (Heffs : effs' = [] \/ effs' = [translation_error]).
    { destruct (translateAudio_responded o (app w)); cbn in Hleave;
        injection Hleave as _ <-; auto. }
    repeat apply conj; [exact Hi | exists j; auto |].
    destruct Heffs as [-> | ->]; intros H;
      repeat (destruct H as [H|H]; [discriminate|]); exact H.
Qed.

Lemma run_left_behind es : forall i w w' effs,
  left_behind i w -> run w es = Some (w', effs) ->
  left_behind i w' /\ ~ In (RecorderStop i) effs.
Proof.
  induction es as [|e es IH]; intros i w w' effs Hbehind Hrun; cbn [run] in Hrun.
  - injection Hrun as <- <-. split; [exact Hbehind | intros []].
  - destruct (dispatch w e) as [[w1 effs1]|] eqn:Hstep; [|discriminate].
    destruct (run w1 es) as [[w2 effs2]|] eqn:Hrest; [|discriminate].
    injection Hrun as <- <-.
    destruct (dispatch_left_behind _ _ _ _ _ Hbehind Hstep) as [H1 Hs1].
    destruct (IH _ _ _ _ H1 Hrest) as [H2 Hs2].
    split; [exact H2|]. intros Hin. apply in_app_or in Hin as [Hin|Hin]; contradiction.
Qed.

Lemma run_orphaned es : forall i w w' effs,
  orphaned i w -> run w es = Some (w', effs) ->
  Forall (fun e => is_stop_event_of i e = false) es ->
  orphaned i w' /\ ~ In (StopTracks i) effs.
Proof.
  induction es as [|e es IH]; intros i w w' effs Horphan Hrun Hquiet;
    cbn [run] in Hrun.
  - injection Hrun as <- <-. split; [exact Horphan | intros []].
  - destruct (dispatch w e) as [[w1 effs1]|] eqn:Hstep; [|discriminate].
    destruct (run w1 es) as [[w2 effs2]|] eqn:Hrest; [|discriminate].
    injection Hrun as <- <-.
    inversion Hquiet as [|e' es' He Hes]; subst.
    destruct (dispatch_orphaned _ _ _ _ _ Horphan He Hstep) as [H1 Ht1].
    destruct (IH _ _ _ _ H1 Hrest Hes) as [H2 Ht2].
    split; [exact H2|]. intros Hin. apply in_app_or in Hin as [Hin|Hin]; contradiction.
Qed.

(** X3: a recorder left behind is out of the page's reach.  Whatever
    events follow, no handler calls [stop()] on it; and as long as it does
    not stop by itself (its own stop event, which comes when its tracks end
    or it fails), it stays recording, the ref stays on a later recorder and
    its stream's tracks are not stopped. *)
Theorem orphaned_recorder_not_stopped_by_page es i w w' effs :
  orphaned i w ->
  run w es = Some (w', effs) ->
  ~ In (RecorderStop i) effs
  /\ (Forall (fun e => is_stop_event_of i e = false) es ->
      orphaned i w' /\ ~ In (StopTracks i) effs).
Proof.
  intros Horphan Hrun. split.
  - exact (proj2 (run_left_behind es i w w' effs
                    (orphaned_left_behind _ _ Horphan) Hrun)).
  - intros Hquiet. exact (run_orphaned es i w w' effs Horphan Hrun Hquiet).
Qed.

Lemma doubleStartWorld_orphaned : orphaned 0 doubleStartWorld.
Proof.
  split; [vm_compute; reflexivity|].
  exists 1. split; [vm_compute; reflexivity | lia].
Qed.

Lemma orphaned_recorder_not_stopped_by_page_witness :
  nth_error
    (recorders
       (world_after
          (double_start_events
             ++ [ Click MainButton; (RecorderStopped 1 (webm [x41]) "blob:2") ])))
    0
  = Some RecRecording.
Proof.
  assert (Hrun : run doubleStartWorld
                   [ Click MainButton; (RecorderStopped 1 (webm [x41]) "blob:2") ]
                 = Some (world_after
                           (double_start_events
                              ++ [ Click MainButton;
                                   (RecorderStopped 1 (webm [x41]) "blob:2") ]),
                         [ RecorderStop 1; CreateObjectURL (webm [x41]);
                           StopTracks 1 ]))
    by (vm_compute; reflexivity).
  assert (Hquiet : Forall (fun e => is_stop_event_of 0 e = false)
                     [ Click MainButton; (RecorderStopped 1 (webm [x41]) "blob:2") ])
    by (repeat constructor).
  exact (proj1 (proj1 (proj2 (orphaned_recorder_not_stopped_by_page _ _ _ _ _
                                doubleStartWorld_orphaned Hrun) Hquiet))).
Defined.

(** ** A page on which nothing can be clicked *)

(** Once the render has thrown, the page stays gone: no button is left to
    click, no call of [translateAudio] is outstanding, and what the
    microphone and the recorders still do does not write [result]. *)
Lemma unmounted_for_good w e w' effs :
  reachable w ->
  render_throws (app w) = true ->
  dispatch w e = Some (w', effs) ->
  result (app w') = result (app w) /\ render_throws (app w') = true.
Proof.
  intros Hreach Hthrows Hstep.
  assert (Hkeep : result (app w') = result (app w) ->
                  result (app w') = result (app w) /\ render_throws (app w') = true).
  { intros Hres. split; [exact Hres|]. unfold render_throws in *.
    rewrite Hres. exact Hthrows. }
  pose proof (reachable_invariant w Hreach) as Hinv.
  pose proof (reachable_no_result_while_processing w Hreach) as Hres.
  unfold processing_invariant, outstanding in Hinv.
  unfold no_result_while_processing in Hres.
  pose proof (render_throws_truthy _ Hthrows) as Htruthy.
  assert (Hproc : isProcessing (app w) = false).
  { destruct (isProcessing (app w)); [|reflexivity].
    rewrite (Hres eq_refl) in Htruthy. discriminate. }
  rewrite Hproc in Hinv.
  destruct e as [b|o|id data url|i h client_ok|i o]; cbn [dispatch] in Hstep.
  - rewrite (proj2 (unmounted_no_button _ b Hthrows)) in Hstep. discriminate.
  - destruct (awaitingMedia w); [discriminate|].
    handler_result Hstep. subst w' effs. apply Hkeep.
    destruct o; reflexivity.
  - destruct (nth_error (recorders w) id) as [r|]; [|discriminate].
    destruct (stop_event_due r); [|discriminate].
    injection Hstep as <- _. apply Hkeep.
    unfold ondataavailable. destruct (0 <? blob_size data)%nat; reflexivity.
  - destruct (awaitingEncode w); [|cbn in Hinv; lia].
    destruct i; discriminate.
  - destruct (awaitingRemote w); [|cbn in Hinv; lia].
    destruct i; discriminate.
Qed.


(** X9: when no button at all can be clicked on a page the user has
    reached, it is for one of two reasons: the render has thrown on the
    stored result and the page is gone, with no call of [translateAudio]
    outstanding; or exactly one call of [translateAudio] is outstanding
    and [isProcessing] is true.  Nothing is said about whether that call
    ever ends: the code sets no timeout. *)
Theorem locked_page_cases w :
  reachable w ->
  (forall b, clickable (app w) b = false) ->
  (render_throws (app w) = true
   /\ isProcessing (app w) = false /\ outstanding w = 0)
  \/ (render_throws (app w) = false
      /\ isProcessing (app w) = true /\ outstanding w = 1).
Proof.
  intros Hreach Hlocked.
  pose proof (reachable_invariant w Hreach) as Hinv.
  pose proof (reachable_no_result_while_processing w Hreach) as Hres.
  unfold processing_invariant in Hinv. unfold no_result_while_processing in Hres.
  pose proof (Hlocked MainButton) as Hmain.
  pose proof (Hlocked ResetButton) as Hreset.
  unfold clickable in Hmain, Hreset. rewrite rendered_spec in Hmain, Hreset.
  cbn [disabled] in Hmain, Hreset. rewrite andb_true_r in Hreset.
  destruct (render_throws (app w)) eqn:Hthrows.
  - left. pose proof (render_throws_truthy _ Hthrows) as Htruthy.
    destruct (isProcessing (app w)).
    + rewrite (Hres eq_refl) in Htruthy. discriminate.
    + repeat apply conj; [reflexivity | reflexivity | exact Hinv].
  - right. rewrite andb_true_r in Hreset. rewrite Hreset in Hmain. cbn in Hmain.
    apply negb_false_iff in Hmain. rewrite Hmain in Hinv.
    repeat apply conj; [reflexivity | exact Hmain | exact Hinv].
Qed.

Lemma encodingWorld_locked_after_rerecord :
  forall b,
    clickable (app (world_after (recording_events
                                   ++ [ Click TranslateButton; Click RerecordButton ])))
              b = false.
Proof. intros []; vm_compute; reflexivity. Qed.

Lemma locked_page_cases_witness :
  outstanding (world_after (recording_events
                              ++ [ Click TranslateButton; Click RerecordButton ])) = 1.
Proof.
  destruct (locked_page_cases _ (world_after_reachable _)
              encodingWorld_locked_after_rerecord) as [(Hthrows & _) | (_ & _ & Hout)].
  - vm_compute in Hthrows. discriminate.
  - exact Hout.
Defined.

(** ** The step that handles the answer *)

Lemma get_prop_truthy name v x :
  Json.get_prop name v = Some x -> Json.truthy v = true.
Proof. destruct v; cbn; intros H; try discriminate; reflexivity. Qed.

(** X10: the answer with both fields, whatever else has happened since
    the submission.  The step that handles it stores the parsed object,
    writes no message and nothing to the console, and clears
    [isProcessing].  When both values can be rendered (text, numbers,
    null, booleans, arrays of these) the panel shows exactly the two
    values and reset is the only button; when one of them is an object,
    or an array that holds one, the render throws and nothing is left to
    see or to click. *)
Theorem complete_response_step w i t v transcription translation w' effs :
  reachable w ->
  dispatch w (RemoteSettled i (RemoteResponse (Some t))) = Some (w', effs) ->
  Json.parse t = Some v ->
  Json.get_prop "transcription" v = Some transcription ->
  Json.get_prop "translation" v = Some translation ->
  result (app w') = v
  /\ isProcessing (app w') = false
  /\ error (app w') = error (app w)
  /\ error (app w') <> Some processing_message
  /\ effs = []
  /\ (valid_child transcription && valid_child translation = true ->
      displayed (app w') = Some (Some transcription, Some translation)
      /\ forall b, clickable (app w') b = true <-> b = ResetButton)
  /\ (valid_child transcription && valid_child translation = false ->
      shown (app w') = None
      /\ forall b, clickable (app w') b = false).
Proof.
  intros Hreach Hstep Hparse Htr Htl.
  pose proof (remote_step_processing _ _ _ _ _ Hreach Hstep) as Hproc.
  pose proof (reachable_no_failure_message w Hreach Hproc) as Herr.
  pose proof (get_prop_truthy _ _ _ Htr) as Htruthy.
  destruct (parsed_response_step _ _ _ _ _ _ Hstep Hparse) as [Happ ->].
  assert (Hres' : result (app w') = v) by (rewrite Happ; reflexivity).
  assert (Hthrows : render_throws (app w')
                    = negb (valid_child transcription && valid_child translation)).
  { unfold render_throws. rewrite Hres', Htruthy, Htr, Htl. reflexivity. }
  repeat apply conj.
  - exact Hres'.
  - rewrite Happ. reflexivity.
  - rewrite Happ. reflexivity.
  - rewrite Happ. exact Herr.
  - reflexivity.
  - intros Hvalid. rewrite Hvalid in Hthrows. cbn in Hthrows. split.
    + unfold displayed, shown, result_area.
      now rewrite Hthrows, Hres', Htruthy, Htr, Htl.
    + intros b. unfold clickable. rewrite rendered_spec.
      destruct b; cbn [disabled]; rewrite Hres', Htruthy, ?Hthrows; cbn;
        split; intros H; try discriminate; reflexivity.
  - intros Hvalid. rewrite Hvalid in Hthrows. cbn in Hthrows. split.
    + unfold shown. now rewrite Hthrows.
    + intros b. exact (proj2 (unmounted_no_button _ b Hthrows)).
Qed.

Lemma complete_response_step_witness :
  displayed (app (world_after (session (RemoteResponse (Some complete_text)))))
  = Some (Some (Json.Str "مرحبا"), Some (Json.Str "Hello"))
  /\ shown (app (world_after (session (RemoteResponse (Some object_field_text)))))
     = None.
Proof.
  assert (Hstep : dispatch processingWorld
                    (RemoteSettled 0 (RemoteResponse (Some complete_text)))
                  = Some (world_after (session (RemoteResponse (Some complete_text))),
                          [])) by (vm_compute; reflexivity).
  assert (Hparse : Json.parse complete_text = Some complete_value)
    by (vm_compute; reflexivity).
  assert (Htr : Json.get_prop "transcription" complete_value
                = Some (Json.Str "مرحبا")) by (vm_compute; reflexivity).
  assert (Htl : Json.get_prop "translation" complete_value
                = Some (Json.Str "Hello")) by (vm_compute; reflexivity).
  assert (Hstep' : dispatch processingWorld
                     (RemoteSettled 0 (RemoteResponse (Some object_field_text)))
                   = Some (world_after
                             (session (RemoteResponse (Some object_field_text))),
                           [])) by (vm_compute; reflexivity).
  assert (Hparse' : Json.parse object_field_text = Some object_field_value)
    by (vm_compute; reflexivity).
  assert (Htr' : Json.get_prop "transcription" object_field_value
                 = Some (Json.Str "a")) by (vm_compute; reflexivity).
  assert (Htl' : Json.get_prop "translation" object_field_value
                 = Some (Json.Obj [("en", Json.Str "x")]))
    by (vm_compute; reflexivity).
  split.
  - exact (proj1 (proj1 (proj2 (proj2 (proj2 (proj2 (proj2
             (complete_response_step _ _ _ _ _ _ _ _ processingWorld_reachable
                Hstep Hparse Htr Htl)))))) eq_refl)).
  - exact (proj1 (proj2 (proj2 (proj2 (proj2 (proj2 (proj2
             (complete_response_step _ _ _ _ _ _ _ _ processingWorld_reachable
                Hstep' Hparse' Htr' Htl')))))) eq_refl)).
Defined.

(** X11: the answer that is valid JSON for a falsy value ([null],
    [false], a zero, an empty string), whatever else has happened since
    the submission.  The step that handles it stores the value as
    [result], writes no message and nothing to the console, and clears
    [isProcessing].  No result panel and no reset button appear; for a
    zero the page shows the text 0 where the panel would be, for the other
    values nothing.  The microphone button can be clicked, and the
    translate button exactly when a capture is held and no recording is
    running. *)
Theorem falsy_response_step w i t v w' effs :
  reachable w ->
  dispatch w (RemoteSettled i (RemoteResponse (Some t))) = Some (w', effs) ->
  Json.parse t = Some v ->
  Json.truthy v = false ->
  result (app w') = v
  /\ isProcessing (app w') = false
  /\ error (app w') = error (app w)
  /\ error (app w') <> Some processing_message
  /\ effs = []
  /\ displayed (app w') = None
  /\ shown (app w')
     = Some (match v with Json.Num _ => AreaZero | _ => AreaEmpty end)
  /\ clickable (app w') ResetButton = false
  /\ clickable (app w') MainButton = true
  /\ (clickable (app w') TranslateButton = true
      <-> audioBlob (app w) <> None /\ isRecording (app w) = false).
Proof.
  intros Hreach Hstep Hparse Hfalsy.
  pose proof (remote_step_processing _ _ _ _ _ Hreach Hstep) as Hproc.
  pose proof (reachable_no_failure_message w Hreach Hproc) as Herr.
  destruct (parsed_response_step _ _ _ _ _ _ Hstep Hparse) as [Happ ->].
  assert (Hres' : result (app w') = v) by (rewrite Happ; reflexivity).
  assert (Hproc' : isProcessing (app w') = false) by (rewrite Happ; reflexivity).
  assert (Hblob' : audioBlob (app w') = audioBlob (app w))
    by (rewrite Happ; reflexivity).
  assert (Hrec' : isRecording (app w') = isRecording (app w))
    by (rewrite Happ; reflexivity).
  assert (Hthrows : render_throws (app w') = false).
  { unfold render_throws. now rewrite Hres', Hfalsy. }
  assert (Hshown : shown (app w')
                   = Some (match v with Json.Num _ => AreaZero | _ => AreaEmpty end)).
  { unfold shown, result_area. rewrite Hthrows, Hres', Hfalsy. reflexivity. }
  repeat apply conj.
  - exact Hres'.
  - exact Hproc'.
  - rewrite Happ. reflexivity.
  - rewrite Happ. exact Herr.
  - reflexivity.
  - unfold displayed. rewrite Hshown. destruct v; reflexivity.
  - exact Hshown.
  - unfold clickable. rewrite rendered_spec. cbn [disabled].
    now rewrite Hres', Hfalsy.
  - unfold clickable. rewrite rendered_spec. cbn [disabled].
    now rewrite Hres', Hfalsy, Hproc'.
  - unfold clickable. rewrite rendered_spec. cbn [disabled].
    rewrite Hres', Hfalsy, Hblob', Hrec', Hproc'. cbn.
    destruct (audioBlob (app w)) as [blob|], (isRecording (app w)); cbn;
      intros H; try discriminate H.
    split; [discriminate | reflexivity].
  - unfold clickable. rewrite rendered_spec. cbn [disabled].
    rewrite Hres', Hfalsy, Hblob', Hrec', Hproc'. cbn.
    intros [Hblob Hrec]. rewrite Hrec.
    destruct (audioBlob (app w)); [reflexivity | congruence].
Qed.

Lemma falsy_response_step_witness :
  shown (app (world_after (session (RemoteResponse (Some "0"))))) = Some AreaZero
  /\ clickable (app (world_after (session (RemoteResponse (Some "0")))))
               TranslateButton = true.
Proof.
  assert (Hstep : dispatch processingWorld (RemoteSettled 0 (RemoteResponse (Some "0")))
                  = Some (world_after (session (RemoteResponse (Some "0"))), []))
    by (vm_compute; reflexivity).
  destruct (Json.parse "0") as [v|] eqn:Hparse; [|vm_compute in Hparse; discriminate].
  assert (Hv : v = Json.Num (Json.mkNumber false 0 0)).
  { vm_compute in Hparse. injection Hparse as <-. reflexivity. }
  subst v.
  destruct (falsy_response_step _ _ _ _ _ _ processingWorld_reachable Hstep Hparse
              eq_refl) as (_ & _ & _ & _ & _ & _ & Hshown & _ & _ & Htranslate).
  split; [exact Hshown|].
  apply Htranslate. split; [vm_compute; discriminate | vm_compute; reflexivity].
Defined.

(** ** The end of a call of [translateAudio] *)

(** Only the end of the encoding or of the remote call takes a call of
    [translateAudio] off the page. *)
Lemma ending_step w e w' effs :
  dispatch w e = Some (w', effs) ->
  outstanding w' < outstanding w ->
  leaves_recording_alone e = true
  /\ ((exists i h client_ok, e = EncodeSettled i h client_ok)
      \/ (exists i o, e = RemoteSettled i o)).
Proof.
  intros Hstep Hlt.
  assert (Hsame : forall w1, same_submissions w w1 -> ~ outstanding w1 < outstanding w).
  { intros w1 (_ & He & Hr). unfold outstanding. rewrite He, Hr. lia. }
  destruct e as [b|o|id data url|i h client_ok|i o]; cbn [dispatch] in Hstep.
  - exfalso. destruct (clickable (app w) b); [|discriminate].
    handler_result Hstep. subst w' effs.
    destruct b; cbn [onClick] in Hlt.
    + destruct (isRecording (app w)).
      * exact (Hsame _ (stopRecording_same w) Hlt).
      * exact (Hsame _ (startRecording_same w) Hlt).
    + exact (Hsame _ (startRecording_same w) Hlt).
    + unfold translateAudio, outstanding in Hlt.
      destruct (audioBlob (app w)); cbn in Hlt; [rewrite length_app in Hlt|]; lia.
    + unfold outstanding in Hlt. cbn in Hlt. lia.
  - exfalso. destruct (awaitingMedia w); [discriminate|].
    handler_result Hstep. subst w' effs.
    exact (Hsame _ (startRecording_resume_same o w) Hlt).
  - exfalso. destruct (nth_error (recorders w) id) as [r|]; [|discriminate].
    destruct (stop_event_due r); [|discriminate].
    injection Hstep as <- _.
    destruct (ondataavailable_same data
                (set_recorders (replace_nth id RecInactive (recorders w)) w))
      as (_ & He & Hr).
    unfold outstanding in Hlt. cbn in Hlt, He, Hr. rewrite He, Hr in Hlt. lia.
  - split; [reflexivity|]. left. now exists i, h, client_ok.
  - split; [reflexivity|]. right. now exists i, o.
Qed.

(** X12: the step in which a call of [translateAudio] ends, whichever way
    and whatever else has happened since the submission.  It leaves
    [isProcessing] false (the [finally] block) and no call outstanding,
    and does not touch the capture, its URL or the recording flag.  Either
    the [catch] block did not run, and [error] is as it was and not the
    message of a failed submission; or it ran, [error] is that message and
    [result] is untouched.  That the call ends at all is not claimed: the
    code sets no timeout on the encoding or on the remote call. *)
Theorem ended_call_clears_processing w e w' effs :
  reachable w ->
  dispatch w e = Some (w', effs) ->
  outstanding w' < outstanding w ->
  isProcessing (app w') = false
  /\ outstanding w' = 0
  /\ audioBlob (app w') = audioBlob (app w)
  /\ audioUrl (app w') = audioUrl (app w)
  /\ isRecording (app w') = isRecording (app w)
  /\ ((error (app w') = error (app w)
       /\ error (app w') <> Some processing_message
       /\ ~ In translation_error effs)
      \/ (error (app w') = Some processing_message
          /\ result (app w') = result (app w)
          /\ In translation_error effs)).
Proof.
  intros Hreach Hstep Hlt.
  pose proof (reachable_invariant w Hreach) as Hinv.
  pose proof (dispatch_invariant _ _ _ _ Hinv Hstep) as Hinv'.
  unfold processing_invariant in Hinv, Hinv'.
  assert (Hproc : isProcessing (app w) = true).
  { destruct (isProcessing (app w)); [reflexivity | lia]. }
  rewrite Hproc in Hinv.
  assert (Hproc' : isProcessing (app w') = false).
  { destruct (isProcessing (app w')); [lia | reflexivity]. }
  rewrite Hproc' in Hinv'.
  pose proof (reachable_no_failure_message w Hreach Hproc) as Herr.
  destruct (ending_step _ _ _ _ Hstep Hlt) as [Hquiet Hevent].
  destruct (quiet_step_frame _ _ _ _ Hstep Hquiet) as (Hblob & Hurl & Hrec).
  repeat apply conj; try assumption.
  destruct Hevent as [(i & h & client_ok & ->) | (i & o & ->)];
    cbn [dispatch] in Hstep.
  - destruct (nth_error (awaitingEncode w) i) as [blob|] eqn:Hnth; [|discriminate].
    pose proof (length_remove_nth _ _ _ Hnth) as Hlen.
    unfold translateAudio_encoded in Hstep.
    destruct (blobToBase64 h blob) as [|base64Audio|]; [discriminate| |].
    + destruct client_ok.
      * exfalso. injection Hstep as <- _. unfold outstanding in Hlt.
        cbn in Hlt. rewrite length_app in Hlt. cbn in Hlt. lia.
      * injection Hstep as <- <-. right.
        repeat apply conj; [reflexivity | reflexivity | left; reflexivity].
    + injection Hstep as <- <-. right.
      repeat apply conj; [reflexivity | reflexivity | left; reflexivity].
  - destruct (nth_error (awaitingRemote w) i); [|discriminate].
    destruct (translateAudio_responded o (app w)) as [s|s] eqn:Hresp;
      cbn in Hstep; injection Hstep as <- <-.
    + left. assert (Hs : error s = error (app w)).
      { destruct o as [|[t|]]; cbn in Hresp; try discriminate.
        - destruct (JsString.truthy t); [destruct (Json.parse t)|];
            try discriminate; injection Hresp as <-; reflexivity.
        - injection Hresp as <-. reflexivity. }
      cbn. rewrite Hs. repeat apply conj; [reflexivity | exact Herr | intros []].
    + right. assert (Hs : s = app w).
      { destruct o as [|[t|]]; cbn in Hresp; try discriminate.
        - injection Hresp as <-. reflexivity.
        - destruct (JsString.truthy t); [destruct (Json.parse t)|];
            try discriminate; injection Hresp as <-; reflexivity. }
      subst s. repeat apply conj; [reflexivity | reflexivity | left; reflexivity].
Qed.

Lemma ended_call_clears_processing_witness :
  isProcessing (app (world_after (session RemoteRejected))) = false
  /\ error (app (world_after (session RemoteRejected))) = Some processing_message.
Proof.
  assert (Hstep : dispatch processingWorld (RemoteSettled 0 RemoteRejected)
                  = Some (world_after (session RemoteRejected), [translation_error]))
    by (vm_compute; reflexivity).
  assert (Hlt : outstanding (world_after (session RemoteRejected))
                < outstanding processingWorld) by (vm_compute; lia).
  destruct (ended_call_clears_processing _ _ _ _ processingWorld_reachable Hstep Hlt)
    as (Hproc & _ & _ & _ & _ & [(_ & Hno & _) | (Herr & _ & _)]).
  - exfalso. apply Hno. vm_compute. reflexivity.
  - split; [exact Hproc | exact Herr].
Defined.
